(** * AFIO v2 handles, extent guards and the lock_files shared mutex

    A shallow embedding of
    - [handle] and [io_handle] (include/boost/afio/v2.0/handle.hpp): the
      caching-mode queries, [io_result::bytes_transferred] and the RAII
      [extent_guard];
    - [algorithm::shared_fs_mutex::lock_files]
      (include/boost/afio/v2/algorithm/shared_fs_mutex/lock_files.hpp): the
      acquisition loop [_lock] and [unlock].

    Unsigned C++ integers are integers of [Z] with the wrap-around written
    out; objects that are mutated through references live in a store; calls
    that leave the translated code (clocks, the virtual [io_handle::lock] and
    [io_handle::unlock], [file_handle::file], [std::random_shuffle],
    [std::this_thread::yield]) go through an interface and are recorded in a
    trace. *)

From stdpp Require Import base tactics option list strings gmap.
From Stdlib Require Import ZArith Lia.

Local Open Scope Z_scope.

(** ** Machine integers *)

(** [size_t] and [extent_type] (unsigned long long) are taken to be 64 bits
    wide. *)
Definition size_bits : Z := 64.
Definition size_modulus : Z := 2 ^ size_bits.
(** [(size_t) -1] *)
Definition size_max : Z := size_modulus - 1.

(** ** Results *)

Inductive errc : Type :=
  | ETIMEDOUT
  | ENOTSUP
  | ECANCELED
  | EOTHER (errno : Z).

(** [result<T>]: a value or an error code. *)
Inductive result (T : Type) : Type :=
  | value (v : T)
  | errored (e : errc).
Arguments value {T} v.
Arguments errored {T} e.

(** ** handle *)

Module caching.
(** [enum class caching : unsigned char], bit 0 set means safety fsyncs
    enabled. *)
Inductive t : Type :=
  | unchanged
  | none
  | only_metadata
  | reads
  | reads_and_metadata
  | all
  | safety_fsyncs
  | temporary.

(** The enumerator values, [static_cast<int>(c)]. *)
Definition to_int (c : t) : Z :=
  match c with
  | unchanged => 0
  | none => 1
  | only_metadata => 2
  | reads => 3
  | reads_and_metadata => 5
  | all => 4
  | safety_fsyncs => 7
  | temporary => 6
  end.

Definition eqb (a b : t) : bool := to_int a =? to_int b.
End caching.

Module flag.
(** The [flag] bitfield. *)
Definition none : Z := 0.
Definition win_delete_on_last_close : Z := Z.shiftl 1 0.
Definition posix_unlink_on_first_close : Z := Z.shiftl 1 1.
Definition disable_safety_fsyncs : Z := Z.shiftl 1 2.
Definition overlapped : Z := Z.shiftl 1 28.
Definition byte_lock_insanity : Z := Z.shiftl 1 29.
End flag.

(** Modelled from the spec: native_handle_type.hpp is not among the sources;
    the native handle is a platform resource id and a descriptor bitmask. *)
Record native_handle_type : Type := {
  behaviour : Z;
  _init : Z
}.

Record handle : Type := {
  _caching : caching.t;
  _flags : Z;
  _v : native_handle_type
}.

Definition kernel_caching (h : handle) : caching.t := _caching h.

Definition are_reads_from_cache (h : handle) : bool :=
  negb (caching.eqb (_caching h) caching.none)
  && negb (caching.eqb (_caching h) caching.only_metadata).

Definition are_writes_durable (h : handle) : bool :=
  caching.eqb (_caching h) caching.none
  || caching.eqb (_caching h) caching.reads
  || caching.eqb (_caching h) caching.reads_and_metadata.

(** [!(_flags & flag::disable_safety_fsyncs) && !!(static_cast<int>(_caching) & 1)] *)
Definition are_safety_fsyncs_issued (h : handle) : bool :=
  (Z.land (_flags h) flag.disable_safety_fsyncs =? 0)
  && negb (Z.land (caching.to_int (_caching h)) 1 =? 0).

(** The caching modes the documentation of [flag::disable_safety_fsyncs]
    lists. *)
Definition fsync_mode (c : caching.t) : bool :=
  match c with
  | caching.none | caching.reads | caching.reads_and_metadata
  | caching.safety_fsyncs => true
  | _ => false
  end.

Definition durable_mode (c : caching.t) : bool :=
  match c with
  | caching.none | caching.reads | caching.reads_and_metadata => true
  | _ => false
  end.

(** ** io_handle *)

(** The identity of an [io_handle] object, as an [io_handle *] holds it. *)
Definition handle_id : Type := nat.

(** [buffer_type = std::pair<char *, size_type>]: an address and a length. *)
Definition buffer_type : Type := (Z * Z)%type.

(** [io_result<T>]: a [result<T>] and the cached byte count. *)
Record io_result : Type := {
  io_base : result (list buffer_type);
  _bytes_transferred : Z
}.

(** The constructors of [io_result] start the cache at [(size_type) -1]. *)
Definition make_io_result (r : result (list buffer_type)) : io_result :=
  {| io_base := r; _bytes_transferred := size_max |}.

(** [_bytes_transferred += i.second] on a [size_type]. *)
Definition add_transferred (acc : Z) (i : buffer_type) : Z :=
  (acc + i.2) mod size_modulus.

(** [io_result::bytes_transferred]: the returned count and the object
    afterwards. [None] stands for [this->value()] on a result that holds no
    value. *)
Definition bytes_transferred (r : io_result) : option (Z * io_result) :=
  if _bytes_transferred r =? size_max then
    match io_base r with
    | value bufs =>
        let n := fold_left add_transferred bufs 0 in
        Some (n, {| io_base := io_base r; _bytes_transferred := n |})
    | errored _ => None
    end
  else Some (_bytes_transferred r, r).

(** The sum of the transferred lengths, as a mathematical integer. *)
Definition total_length (bufs : list buffer_type) : Z :=
  foldr (λ i acc, i.2 + acc) 0 bufs.

(** Modelled from the spec: deadline.h is not among the sources. A deadline
    is absent ("wait forever"), a duration in nanoseconds measured on the
    steady clock, or a point of the system clock. [if(d)] holds for the last
    two, [d.steady] for the duration. *)
Inductive deadline : Type :=
  | infinite
  | relative (nsecs : Z)
  | absolute (utc : Z).

(** [deadline(std::chrono::seconds(0))] *)
Definition zero_deadline : deadline := relative 0.

(** [io_handle::extent_guard] *)
Record extent_guard : Type := {
  _h : option handle_id;
  _offset : Z;
  _length : Z;
  _exclusive : bool
}.

(** Modelled from the spec: base.hpp is not among the sources. An entity is
    a 64-bit id and a shared/exclusive flag. *)
Record entity_type : Type := {
  entity_value : Z;
  entity_exclusive : bool
}.

(** ** Calls that leave the translated code *)

Inductive event : Type :=
  | ev_steady_now (t : Z)
  | ev_system_now (t : Z)
  | ev_file (r : result handle_id)
  | ev_close (h : handle_id)
  | ev_lock (h : handle_id) (offset bytes : Z) (exclusive : bool)
      (d : deadline) (r : result extent_guard)
  | ev_unlock (h : handle_id) (offset bytes : Z)
  | ev_random_shuffle (before after : list entity_type)
  | ev_yield.

(** The platform below the headers: the clocks, the virtual functions of
    [io_handle] whose bodies are in the per-platform sources,
    [file_handle::file], the closing of a handle, [std::random_shuffle] and
    [std::this_thread::yield], each as a transition of a world [W]. *)
Class Platform (W : Type) : Type := {
  steady_clock_now : W → Z * W;
  system_clock_now : W → Z * W;
  file_handle_file : W → result handle_id * W;
  handle_close : handle_id → W → W;
  io_handle_lock :
    handle_id → Z → Z → bool → deadline → W → result extent_guard * W;
  io_handle_unlock : handle_id → Z → Z → W → W;
  random_shuffle : list entity_type → W → list entity_type * W;
  this_thread_yield : W → W
}.

(** The world together with the calls made so far, oldest first. *)
Record st (W : Type) : Type := {
  world : W;
  trace : list event
}.
Arguments world {W} s.
Arguments trace {W} s.

Definition do_steady_now `{Platform W} (s : st W) : Z * st W :=
  let r := steady_clock_now (world s) in
  (r.1, {| world := r.2; trace := trace s ++ [ev_steady_now r.1] |}).

Definition do_system_now `{Platform W} (s : st W) : Z * st W :=
  let r := system_clock_now (world s) in
  (r.1, {| world := r.2; trace := trace s ++ [ev_system_now r.1] |}).

Definition do_file `{Platform W} (s : st W) : result handle_id * st W :=
  let r := file_handle_file (world s) in
  (r.1, {| world := r.2; trace := trace s ++ [ev_file r.1] |}).

(** Modelled from the spec: the destructor of [handle] is only declared in
    the header; a handle closes its native handle when it is destroyed. *)
Definition do_close `{Platform W} (h : handle_id) (s : st W) : st W :=
  {| world := handle_close h (world s); trace := trace s ++ [ev_close h] |}.

Definition do_lock `{Platform W} (h : handle_id) (offset bytes : Z)
    (exclusive : bool) (d : deadline) (s : st W) : result extent_guard * st W :=
  let r := io_handle_lock h offset bytes exclusive d (world s) in
  (r.1, {| world := r.2;
           trace := trace s ++ [ev_lock h offset bytes exclusive d r.1] |}).

Definition do_unlock `{Platform W} (h : handle_id) (offset bytes : Z)
    (s : st W) : st W :=
  {| world := io_handle_unlock h offset bytes (world s);
     trace := trace s ++ [ev_unlock h offset bytes] |}.

Definition do_random_shuffle `{Platform W} (l : list entity_type) (s : st W)
    : list entity_type * st W :=
  let r := random_shuffle l (world s) in
  (r.1, {| world := r.2; trace := trace s ++ [ev_random_shuffle l r.1] |}).

Definition do_yield `{Platform W} (s : st W) : st W :=
  {| world := this_thread_yield (world s); trace := trace s ++ [ev_yield] |}.

(** ** io_handle::extent_guard *)

Module extent_guard.

(** The private constructor [extent_guard(h, offset, length, exclusive)]. *)
Definition make (h : handle_id) (offset length : Z) (exclusive : bool)
    : extent_guard :=
  {| _h := Some h; _offset := offset; _length := length;
     _exclusive := exclusive |}.

(** The default constructor. *)
Definition default : extent_guard :=
  {| _h := None; _offset := 0; _length := 0; _exclusive := false |}.

(** [explicit operator bool] *)
Definition valid (g : extent_guard) : bool :=
  match _h g with Some _ => true | None => false end.

Definition handle (g : extent_guard) : option handle_id := _h g.

Definition set_handle (h : option handle_id) (g : extent_guard)
    : extent_guard :=
  {| _h := h; _offset := _offset g; _length := _length g;
     _exclusive := _exclusive g |}.

Definition extent (g : extent_guard) : Z * Z * bool :=
  (_offset g, _length g, _exclusive g).

(** [release()]: the four assignments. *)
Definition release (g : extent_guard) : extent_guard :=
  {| _h := None; _offset := 0; _length := 0; _exclusive := false |}.

(** [unlock()]: the guard afterwards and the state afterwards. *)
Definition unlock `{Platform W} (g : extent_guard) (s : st W)
    : extent_guard * st W :=
  match _h g with
  | Some h => (release g, do_unlock h (_offset g) (_length g) s)
  | None => (g, s)
  end.

(** [~extent_guard()] *)
Definition destructor `{Platform W} (g : extent_guard) (s : st W) : st W :=
  match _h g with
  | Some _ => (unlock g s).2
  | None => s
  end.

(** Guard objects are mutated through [this] and through the rvalue
    reference of the move operations, which may name the same object; they
    live in a store indexed by their address. Every operation below is
    [None] when an address names no object. *)
Abbreviation store := (gmap nat extent_guard).

Definition release_at (a : nat) (σ : store) : option store :=
  g ← σ !! a; Some (<[a := release g]> σ).

Definition unlock_at `{Platform W} (a : nat) (σ : store) (s : st W)
    : option (store * st W) :=
  g ← σ !! a;
  let r := unlock g s in
  Some (<[a := r.1]> σ, r.2).

Definition destructor_at `{Platform W} (a : nat) (σ : store) (s : st W)
    : option (store * st W) :=
  g ← σ !! a; Some (delete a σ, destructor g s).

(** [extent_guard(extent_guard &&o)]: the object is built at [this], where
    no object is yet, from the members of [o]; then [o.release()]. *)
Definition move_construct (this o : nat) (σ : store) : option store :=
  match σ !! this with
  | Some _ => None
  | None =>
      g ← σ !! o;
      release_at o
        (<[this := {| _h := _h g; _offset := _offset g;
                      _length := _length g; _exclusive := _exclusive g |}]> σ)
  end.

(** [operator=(extent_guard &&o)]: [unlock()], the four member
    assignments, each reading [o] as it is then, and [o.release()]. *)
Definition move_assign `{Platform W} (this o : nat) (σ : store) (s : st W)
    : option (store * st W) :=
  r ← unlock_at this σ s;
  g1 ← r.1 !! o; t1 ← r.1 !! this;
  let σ1 := <[this := set_handle (_h g1) t1]> r.1 in
  g2 ← σ1 !! o; t2 ← σ1 !! this;
  let σ2 := <[this := {| _h := _h t2; _offset := _offset g2;
                         _length := _length t2;
                         _exclusive := _exclusive t2 |}]> σ1 in
  g3 ← σ2 !! o; t3 ← σ2 !! this;
  let σ3 := <[this := {| _h := _h t3; _offset := _offset t3;
                         _length := _length g3;
                         _exclusive := _exclusive t3 |}]> σ2 in
  g4 ← σ3 !! o; t4 ← σ3 !! this;
  let σ4 := <[this := {| _h := _h t4; _offset := _offset t4;
                         _length := _length t4;
                         _exclusive := _exclusive g4 |}]> σ3 in
  σ5 ← release_at o σ4;
  Some (σ5, r.2).

End extent_guard.

(** The calls of [io_handle::unlock] among a list of events. *)
Definition unlock_calls (t : list event) : list (handle_id * Z * Z) :=
  omap (λ ev, match ev with
              | ev_unlock h offset bytes => Some (h, offset, bytes)
              | _ => None
              end) t.

(** ** algorithm::shared_fs_mutex::lock_files *)

(** How a run of a C++ function ends in the model. *)
Inductive outcome (A : Type) : Type :=
  | finished (a : A)
  | undefined_behaviour
  | out_of_fuel.
Arguments finished {A} a.
Arguments undefined_behaviour {A}.
Arguments out_of_fuel {A}.

Module lock_files.

(** [_lock] and [unlock] name a member [_h], the [io_handle] whose byte
    ranges are locked; it is a parameter of everything below. [out] stands
    for [out.entities]. Time points are integers of nanoseconds. *)

(** The prologue: [began_steady] and [end_utc]. *)
Definition start_clocks `{Platform W} (d : deadline) (s : st W)
    : Z * Z * st W :=
  match d with
  | infinite => (0, 0, s)
  | relative _ => let r := do_steady_now s in (r.1, 0, r.2)
  | absolute utc => (0, utc, s)
  end.

(** [stl11::chrono::nanoseconds((d).nsecs)]: the unsigned 64-bit count of
    the deadline becomes the signed 64-bit count of a duration, so counts
    from 2^63 up become negative. *)
Definition nanoseconds (nsecs : Z) : Z :=
  (nsecs + 2 ^ 63) mod 2 ^ 64 - 2 ^ 63.

(** The test at the head of the [for] body: has the deadline passed? *)
Definition timed_out `{Platform W} (d : deadline) (began_steady end_utc : Z)
    (s : st W) : bool * st W :=
  match d with
  | infinite => (false, s)
  | relative nsecs =>
      let r := do_steady_now s in
      (began_steady + nanoseconds nsecs <=? r.1, r.2)
  | absolute _ =>
      let r := do_system_now s in (end_utc <=? r.1, r.2)
  end.

(** How control leaves the [for] loop. *)
Inductive for_exit : Type :=
  | for_done
  | for_goto_failed
  | for_return (e : errc).

(** [for(n = 0; n < out.entities.size(); n++)], from index [n] on: [rest] is
    [out.entities] from index [n]. The local [guard] is destroyed when
    control leaves the body. The result carries the final [n]. *)
Fixpoint for_entities `{Platform W} (_h : handle_id) (d : deadline)
    (began_steady end_utc : Z) (rest : list entity_type) (n : Z) (s : st W)
    : for_exit * Z * st W :=
  match rest with
  | [] => (for_done, n, s)
  | e :: rest' =>
      let c := timed_out d began_steady end_utc s in
      if c.1 then (for_return ETIMEDOUT, n, c.2)
      else
        let r := do_lock _h (entity_value e) 1 (entity_exclusive e)
                   zero_deadline c.2 in
        match r.1 with
        | errored ec => (for_return ec, n, r.2)
        | value guard =>
            if extent_guard.valid guard
            then for_entities _h d began_steady end_utc rest' (n + 1)
                   (extent_guard.destructor guard r.2)
            else (for_goto_failed, n, extent_guard.destructor guard r.2)
        end
  end.

(** The loop of the [Undoer] callable from index [k] down to index 0;
    [None] when [out.entities[k]] is outside the vector. *)
Fixpoint undo_loop `{Platform W} (_h : handle_id) (out : list entity_type)
    (k : nat) (s : st W) : option (st W) :=
  e ← out !! k;
  let s' := do_unlock _h (entity_value e) 1 s in
  match k with
  | O => Some s'
  | S k' => undo_loop _h out k' s'
  end.

(** The [Undoer] callable, [for(; n != (size_t) -1; n--) ...]: the final [n]
    and the state. [n] is [None] while it has never been assigned; reading
    it then has no defined behaviour. *)
Definition undo `{Platform W} (_h : handle_id) (out : list entity_type)
    (n : option Z) (s : st W) : option (Z * st W) :=
  n ← n;
  if n =? size_max then Some (n, s)
  else s' ← undo_loop _h out (Z.to_nat n) s; Some (size_max, s').

(** How control leaves the inner block of the [do] body. *)
Inductive block_exit : Type :=
  | block_continue
  | block_failed
  | block_return (e : errc).

(** The inner block: [undo], the lock file [ret], the [for] loop; on the
    way out [ret] is destroyed, which closes it, and then [undo], which runs
    its callable unless dismissed. *)
Definition block `{Platform W} (_h : handle_id) (out : list entity_type)
    (d : deadline) (began_steady end_utc : Z) (n : option Z) (s : st W)
    : option (block_exit * Z * st W) :=
  let f := do_file s in
  match f.1 with
  | errored ec =>
      u ← undo _h out n f.2; Some (block_return ec, u.1, u.2)
  | value ret =>
      let r := for_entities _h d began_steady end_utc out 0 f.2 in
      let s1 := do_close ret r.2 in
      match r.1.1 with
      | for_done => Some (block_continue, r.1.2, s1)
      | for_goto_failed =>
          u ← undo _h out (Some r.1.2) s1; Some (block_failed, u.1, u.2)
      | for_return ec =>
          u ← undo _h out (Some r.1.2) s1; Some (block_return ec, u.1, u.2)
      end
  end.

(** [do { ... } while(n < out.entities.size());] and the final
    [return make_result<void>()]. The result carries [out.entities] as the
    call leaves it. *)
Fixpoint do_while `{Platform W} (fuel : nat) (_h : handle_id)
    (out : list entity_type) (d : deadline) (began_steady end_utc : Z)
    (n : option Z) (s : st W)
    : outcome (result unit * list entity_type * st W) :=
  match fuel with
  | O => out_of_fuel
  | S fuel' =>
      match block _h out d began_steady end_utc n s with
      | None => undefined_behaviour
      | Some (block_return ec, _, s') => finished (errored ec, out, s')
      | Some (block_continue, n', s') =>
          if n' <? Z.of_nat (length out)
          then do_while fuel' _h out d began_steady end_utc (Some n') s'
          else finished (value (), out, s')
      | Some (block_failed, n', s') =>
          let sh := do_random_shuffle out s' in
          let s'' := do_yield sh.2 in
          if n' <? Z.of_nat (length sh.1)
          then do_while fuel' _h sh.1 d began_steady end_utc (Some n') s''
          else finished (value (), sh.1, s'')
      end
  end.

Definition _lock `{Platform W} (fuel : nat) (_h : handle_id)
    (out : list entity_type) (d : deadline) (s : st W)
    : outcome (result unit * list entity_type * st W) :=
  let c := start_clocks d s in
  do_while fuel _h out d c.1.1 c.1.2 None c.2.

(** [unlock(entities)] *)
Definition unlock `{Platform W} (_h : handle_id)
    (entities : list entity_type) (s : st W) : st W :=
  fold_left (λ s i, do_unlock _h (entity_value i) 1 s) entities s.

End lock_files.

(** ** Which locks a trace leaves held *)

(** The requests of [io_handle::lock] among a list of events. *)
Definition lock_calls (t : list event)
    : list (handle_id * Z * Z * bool * deadline) :=
  omap (λ ev, match ev with
              | ev_lock h offset bytes exclusive d _ =>
                  Some (h, offset, bytes, exclusive, d)
              | _ => None
              end) t.

Fixpoint remove_first (x : handle_id * Z * Z)
    (l : list (handle_id * Z * Z)) : list (handle_id * Z * Z) :=
  match l with
  | [] => []
  | y :: l' => if decide (x = y) then l' else y :: remove_first x l'
  end.

(** A granted lock is held from the [lock] call that returned its valid
    guard until an [unlock] call with the same handle, offset and length. *)
Definition held_step (held : list (handle_id * Z * Z)) (ev : event)
    : list (handle_id * Z * Z) :=
  match ev with
  | ev_lock _ _ _ _ _ (value g) =>
      match _h g with
      | Some h => held ++ [(h, _offset g, _length g)]
      | None => held
      end
  | ev_unlock h offset bytes => remove_first (h, offset, bytes) held
  | _ => held
  end.

Definition held_after (t : list event) (held : list (handle_id * Z * Z))
    : list (handle_id * Z * Z) :=
  fold_left held_step t held.

(** ** A platform: one lock file, a ticking clock *)

Record byte_lock : Type := {
  bl_holder : handle_id;
  bl_offset : Z;
  bl_bytes : Z;
  bl_exclusive : bool
}.

(** The lock table of the lock file, the two clocks and the time every
    reading of a clock takes, the next handle [file_handle::file] hands out,
    what a refused [lock] returns, and the state of the shuffle. *)
Record fs_world : Type := {
  fs_locks : list byte_lock;
  fs_steady : Z;
  fs_system : Z;
  fs_tick : nat;
  fs_next : handle_id;
  fs_refusal : result extent_guard;
  fs_seed : nat
}.

(** A length of zero locks the whole file. *)
Definition overlaps (offset bytes offset' bytes' : Z) : bool :=
  (bytes =? 0) || (bytes' =? 0)
  || ((offset <? offset' + bytes') && (offset' <? offset + bytes)).

(** A request conflicts with every held lock that overlaps it when either
    of the two is exclusive, whichever handle holds it. *)
Definition conflicts (h : handle_id) (offset bytes : Z) (exclusive : bool)
    (l : byte_lock) : bool :=
  overlaps offset bytes (bl_offset l) (bl_bytes l)
  && (exclusive || bl_exclusive l).

Definition same_lock (h : handle_id) (offset bytes : Z) (l : byte_lock)
    : bool :=
  Nat.eqb h (bl_holder l) && (offset =? bl_offset l) && (bytes =? bl_bytes l).

Fixpoint drop_lock (h : handle_id) (offset bytes : Z) (ls : list byte_lock)
    : list byte_lock :=
  match ls with
  | [] => []
  | l :: ls' =>
      if same_lock h offset bytes l then ls'
      else l :: drop_lock h offset bytes ls'
  end.

(** Modelled from the spec: the body of [io_handle::lock] is in the
    per-platform sources, which are not among the sources. Overlapping
    requests, of one handle or of several, are not both granted unless
    both are shared; a granted request returns the guard of the range asked
    for; the
    table does not change while a request waits, so a request that conflicts
    is refused whatever its deadline. *)
Definition fs_lock (h : handle_id) (offset bytes : Z) (exclusive : bool)
    (d : deadline) (w : fs_world) : result extent_guard * fs_world :=
  if existsb (conflicts h offset bytes exclusive) (fs_locks w)
  then (fs_refusal w, w)
  else (value (extent_guard.make h offset bytes exclusive),
        {| fs_locks := fs_locks w ++ [{| bl_holder := h; bl_offset := offset;
                                         bl_bytes := bytes;
                                         bl_exclusive := exclusive |}];
           fs_steady := fs_steady w; fs_system := fs_system w;
           fs_tick := fs_tick w; fs_next := fs_next w;
           fs_refusal := fs_refusal w; fs_seed := fs_seed w |}).

(** Modelled from the spec: the body of [io_handle::unlock] is not among
    the sources. Unlocking a range that is not held changes nothing. *)
Definition fs_unlock (h : handle_id) (offset bytes : Z) (w : fs_world)
    : fs_world :=
  {| fs_locks := drop_lock h offset bytes (fs_locks w);
     fs_steady := fs_steady w; fs_system := fs_system w;
     fs_tick := fs_tick w; fs_next := fs_next w;
     fs_refusal := fs_refusal w; fs_seed := fs_seed w |}.

Definition fs_steady_now (w : fs_world) : Z * fs_world :=
  (fs_steady w,
   {| fs_locks := fs_locks w; fs_steady := fs_steady w + Z.of_nat (fs_tick w);
      fs_system := fs_system w; fs_tick := fs_tick w; fs_next := fs_next w;
      fs_refusal := fs_refusal w; fs_seed := fs_seed w |}).

Definition fs_system_now (w : fs_world) : Z * fs_world :=
  (fs_system w,
   {| fs_locks := fs_locks w; fs_steady := fs_steady w;
      fs_system := fs_system w + Z.of_nat (fs_tick w); fs_tick := fs_tick w;
      fs_next := fs_next w; fs_refusal := fs_refusal w;
      fs_seed := fs_seed w |}).

Definition fs_file (w : fs_world) : result handle_id * fs_world :=
  (value (fs_next w),
   {| fs_locks := fs_locks w; fs_steady := fs_steady w;
      fs_system := fs_system w; fs_tick := fs_tick w;
      fs_next := S (fs_next w); fs_refusal := fs_refusal w;
      fs_seed := fs_seed w |}).

Definition fs_shuffle (l : list entity_type) (w : fs_world)
    : list entity_type * fs_world :=
  (rotate (fs_seed w) l,
   {| fs_locks := fs_locks w; fs_steady := fs_steady w;
      fs_system := fs_system w; fs_tick := fs_tick w; fs_next := fs_next w;
      fs_refusal := fs_refusal w; fs_seed := S (fs_seed w) |}).

#[export] Instance fs_platform : Platform fs_world := {|
  steady_clock_now := fs_steady_now;
  system_clock_now := fs_system_now;
  file_handle_file := fs_file;
  handle_close := λ _ w, w;
  io_handle_lock := fs_lock;
  io_handle_unlock := fs_unlock;
  random_shuffle := fs_shuffle;
  this_thread_yield := λ w, w
|}.

(** ** What the specification says of [bytes_transferred] *)

(** The object and every later call see the count [n] without looking at the
    buffer list again: whatever the buffers have become, the call returns
    [n] and leaves the object as it is. *)
Definition returns_cached (r : io_result) (n : Z) : Prop :=
  ∀ base',
    bytes_transferred
      {| io_base := base'; _bytes_transferred := _bytes_transferred r |}
    = Some (n, {| io_base := base';
                  _bytes_transferred := _bytes_transferred r |}).

(** The first call on a fresh result returns the sum of the transferred
    lengths, and the calls after it return that count from the cache. *)
Definition bytes_transferred_as_specified (bufs : list buffer_type) : Prop :=
  ∃ r', bytes_transferred (make_io_result (value bufs))
        = Some (total_length bufs, r')
        ∧ returns_cached r' (total_length bufs).

(** ** Reading the trace of lock_files *)

(** The request [_lock] makes for an entity: one byte at the offset of the
    entity's id, with its exclusive flag and a deadline of zero. *)
Definition lock_request (_h : handle_id) (e : entity_type)
    : handle_id * Z * Z * bool * deadline :=
  (_h, entity_value e, 1, entity_exclusive e, zero_deadline).

(** The call [unlock] makes for an entity. *)
Definition unlock_event (_h : handle_id) (e : entity_type) : event :=
  ev_unlock _h (entity_value e) 1.

(** The requests among a list of events that were granted, that is,
    answered with a valid guard. *)
Definition granted (t : list event)
    : list (handle_id * Z * Z * bool * deadline) :=
  omap (λ ev, match ev with
              | ev_lock h offset bytes exclusive d (value g) =>
                  if extent_guard.valid g
                  then Some (h, offset, bytes, exclusive, d) else None
              | _ => None
              end) t.

(** ** A contended lock directory *)

Definition entity_A : entity_type :=
  {| entity_value := 1; entity_exclusive := true |}.
Definition entity_B : entity_type :=
  {| entity_value := 2; entity_exclusive := true |}.

(** Handle 9, of another party, holds entity A exclusively; a refused lock
    returns an invalid guard. *)
Definition contended_world : fs_world :=
  {| fs_locks := [{| bl_holder := 9%nat; bl_offset := 1; bl_bytes := 1;
                     bl_exclusive := true |}];
     fs_steady := 1000; fs_system := 5000; fs_tick := 1%nat;
     fs_next := 100%nat; fs_refusal := value extent_guard.default;
     fs_seed := 1%nat |}.

(** The same directory with no lock held. *)
Definition free_world : fs_world :=
  {| fs_locks := [];
     fs_steady := 1000; fs_system := 5000; fs_tick := 1%nat;
     fs_next := 100%nat; fs_refusal := value extent_guard.default;
     fs_seed := 1%nat |}.

(** The locks of the table that handle [h] holds. *)
Definition locks_of (h : handle_id) (w : fs_world) : list byte_lock :=
  filter (λ l, bl_holder l = h) (fs_locks w).

(** Two live guards of handles 7 and 8, at addresses 1 and 2. *)
Definition guard_1 : extent_guard := extent_guard.make 7%nat 10 1 true.
Definition guard_2 : extent_guard := extent_guard.make 8%nat 20 4 false.
Definition two_guards : gmap nat extent_guard :=
  <[2%nat := guard_2]> {[1%nat := guard_1]}.

(** The initial state of a run: a world and no call made yet. *)
Definition start {W : Type} (w : W) : st W := {| world := w; trace := [] |}.

(** * The rest of handle.hpp, lock_files.hpp and path_discovery.hpp *)

(** ** The stream printers of handle.hpp *)

Module mode.
(** [enum class mode : unsigned char], bit 0 set means writable. *)
Inductive t : Type :=
  | unchanged
  | none
  | attr_read
  | attr_write
  | read
  | write
  | append.

Definition to_int (m : t) : Z :=
  match m with
  | unchanged => 0
  | none => 2
  | attr_read => 4
  | attr_write => 5
  | read => 6
  | write => 7
  | append => 9
  end.

(** The enumerator a value stands for, if any. *)
Definition of_int (v : Z) : option t :=
  match v with
  | 0 => Some unchanged
  | 2 => Some none
  | 4 => Some attr_read
  | 5 => Some attr_write
  | 6 => Some read
  | 7 => Some write
  | 9 => Some append
  | _ => None
  end.

(** The identifier of the enumerator. *)
Definition name (m : t) : string :=
  match m with
  | unchanged => "unchanged"
  | none => "none"
  | attr_read => "attr_read"
  | attr_write => "attr_write"
  | read => "read"
  | write => "write"
  | append => "append"
  end.
End mode.

Module creation.
(** [enum class creation : unsigned char] *)
Inductive t : Type :=
  | open_existing
  | only_if_not_exist
  | if_needed
  | truncate.

Definition to_int (c : t) : Z :=
  match c with
  | open_existing => 0
  | only_if_not_exist => 1
  | if_needed => 2
  | truncate => 3
  end.

Definition of_int (v : Z) : option t :=
  match v with
  | 0 => Some open_existing
  | 1 => Some only_if_not_exist
  | 2 => Some if_needed
  | 3 => Some truncate
  | _ => None
  end.

Definition name (c : t) : string :=
  match c with
  | open_existing => "open_existing"
  | only_if_not_exist => "only_if_not_exist"
  | if_needed => "if_needed"
  | truncate => "truncate"
  end.
End creation.

(** The enumerator of [caching] a value stands for, and its identifier. *)
Definition caching_of_int (v : Z) : option caching.t :=
  match v with
  | 0 => Some caching.unchanged
  | 1 => Some caching.none
  | 2 => Some caching.only_metadata
  | 3 => Some caching.reads
  | 5 => Some caching.reads_and_metadata
  | 4 => Some caching.all
  | 7 => Some caching.safety_fsyncs
  | 6 => Some caching.temporary
  | _ => None
  end.

Definition caching_name (c : caching.t) : string :=
  match c with
  | caching.unchanged => "unchanged"
  | caching.none => "none"
  | caching.only_metadata => "only_metadata"
  | caching.reads => "reads"
  | caching.reads_and_metadata => "reads_and_metadata"
  | caching.all => "all"
  | caching.safety_fsyncs => "safety_fsyncs"
  | caching.temporary => "temporary"
  end.

(** The printers return the text they send to the stream. Their argument
    is the value of the enumeration, [static_cast<size_t>(v)]. *)

(** [operator<<(std::ostream &, const handle::mode &)] *)
Definition print_mode (v : Z) : string :=
  let values : list (option string) :=
    [Some "unchanged"; None; Some "none"; None; Some "attr_read";
     Some "attr_write"; Some "read"; Some "write"; None; Some "append"] in
  if Z.of_nat (length values) <=? v then "afio::handle::mode::<unknown>"
  else match values !! Z.to_nat v with
       | Some (Some text) => "afio::handle::mode::" +:+ text
       | _ => "afio::handle::mode::<unknown>"
       end.

(** [operator<<(std::ostream &, const handle::creation &)] *)
Definition print_creation (v : Z) : string :=
  let values : list (option string) :=
    [Some "open_existing"; Some "only_if_not_exist"; Some "if_needed";
     Some "truncate"] in
  if Z.of_nat (length values) <=? v then "afio::handle::creation::<unknown>"
  else match values !! Z.to_nat v with
       | Some (Some text) => "afio::handle::creation::" +:+ text
       | _ => "afio::handle::creation::<unknown>"
       end.

(** [operator<<(std::ostream &, const handle::caching &)] *)
Definition print_caching (v : Z) : string :=
  let values : list (option string) :=
    [Some "unchanged"; Some "none"; Some "only_metadata"; Some "reads";
     Some "all"; Some "reads_and_metadata"; Some "temporary";
     Some "safety_fsyncs"] in
  if Z.of_nat (length values) <=? v then "afio::handle::caching::<unknown>"
  else match values !! Z.to_nat v with
       | Some (Some text) => "afio::handle::caching::" +:+ text
       | _ => "afio::handle::caching::<unknown>"
       end.

(** [!!(v & f)] on the flag bitfield. *)
Definition flag_set (v f : Z) : bool := negb (Z.land v f =? 0).

(** The character ['|']. *)
Definition bar : Ascii.ascii := Ascii.ascii_of_nat 124.

(** [std::count(temp.cbegin(), temp.cend(), c)] *)
Fixpoint count_char (c : Ascii.ascii) (s : string) : nat :=
  match s with
  | EmptyString => O
  | String a s' => ((if Ascii.eqb a c then 1 else 0) + count_char c s')%nat
  end.

(** [operator<<(std::ostream &, const handle::flag &)] *)
Definition print_flag (v : Z) : string :=
  let temp := "" in
  let temp := if flag_set v flag.win_delete_on_last_close
              then temp +:+ "win_delete_on_last_close|" else temp in
  let temp := if flag_set v flag.posix_unlink_on_first_close
              then temp +:+ "posix_unlink_on_first_close|" else temp in
  let temp := if flag_set v flag.disable_safety_fsyncs
              then temp +:+ "disable_safety_fsyncs|" else temp in
  let temp := if flag_set v flag.overlapped
              then temp +:+ "overlapped|" else temp in
  let temp := if flag_set v flag.byte_lock_insanity
              then temp +:+ "byte_lock_insanity|" else temp in
  let temp :=
    if negb (String.length temp =? 0)%nat then
      let temp := String.substring 0 (String.length temp - 1) temp in
      if (0 <? count_char bar temp)%nat then "(" +:+ temp +:+ ")" else temp
    else "none" in
  "afio::handle::flag::" +:+ temp.

(** The names of the flags set in [v], in the order of the printer. *)
Definition flag_names (v : Z) : list string :=
  (if Z.testbit v 0 then ["win_delete_on_last_close"] else [])
  ++ (if Z.testbit v 1 then ["posix_unlink_on_first_close"] else [])
  ++ (if Z.testbit v 2 then ["disable_safety_fsyncs"] else [])
  ++ (if Z.testbit v 28 then ["overlapped"] else [])
  ++ (if Z.testbit v 29 then ["byte_lock_insanity"] else []).

(** [l] joined by bars. *)
Fixpoint join_bar (l : list string) : string :=
  match l with
  | [] => ""
  | [x] => x
  | x :: l' => x +:+ "|" +:+ join_bar l'
  end.

(** The five named bits of a flag value. *)
Definition flag_bits (v : Z) : bool * bool * bool * bool * bool :=
  (Z.testbit v 0, Z.testbit v 1, Z.testbit v 2, Z.testbit v 28,
   Z.testbit v 29).

(** The flag value that has exactly the given named bits. *)
Definition flag_of_bits (b : bool * bool * bool * bool * bool) : Z :=
  let '(b0, b1, b2, b28, b29) := b in
  Z.lor (if b0 then flag.win_delete_on_last_close else 0)
    (Z.lor (if b1 then flag.posix_unlink_on_first_close else 0)
       (Z.lor (if b2 then flag.disable_safety_fsyncs else 0)
          (Z.lor (if b28 then flag.overlapped else 0)
             (if b29 then flag.byte_lock_insanity else 0)))).

(** ** The stream printer of path_discovery.hpp *)

Module source_type.
(** [enum class source_type] of [discovered_path]. *)
Inductive t : Type :=
  | unknown
  | local
  | environment
  | system
  | hardcoded.

Definition to_int (k : t) : Z :=
  match k with
  | unknown => 0
  | local => 1
  | environment => 2
  | system => 3
  | hardcoded => 4
  end.

Definition name (k : t) : string :=
  match k with
  | unknown => "unknown"
  | local => "local"
  | environment => "environment"
  | system => "system"
  | hardcoded => "hardcoded"
  end.
End source_type.

(** [operator<<(std::ostream &, const discovered_path::source_type &)]:
    [None] when the table of names is read outside its five entries. *)
Definition print_source_type (v : Z) : option string :=
  let values : list string :=
    ["unknown"; "local"; "environment"; "system"; "hardcoded"] in
  if Z.of_nat (length values) <? v
  then Some "llfio::path_discovery::discovered_path::source_type::<unknown>"
  else text ← values !! Z.to_nat v;
       Some ("llfio::path_discovery::discovered_path::source_type::" +:+ text).

(** ** The constructors of handle *)

(** [handle()]: the native handle is default-constructed; [empty] stands
    for [native_handle_type()], whose header is not among the sources. *)
Definition handle_default (empty : native_handle_type) : handle :=
  {| _caching := caching.none; _flags := flag.none; _v := empty |}.

(** [handle(native_handle_type h, caching, flags)] *)
Definition handle_of (h : native_handle_type) (c : caching.t) (f : Z)
    : handle :=
  {| _caching := c; _flags := f; _v := h |}.

(** [handle(handle &&o)]: the new handle and [o] afterwards. *)
Definition handle_move (empty : native_handle_type) (o : handle)
    : handle * handle :=
  ({| _caching := _caching o; _flags := _flags o; _v := _v o |},
   {| _caching := caching.none; _flags := flag.none; _v := empty |}).

(** ** The lock overloads of io_handle *)

(** [io_request<T>] *)
Record io_request : Type := {
  buffers : list buffer_type;
  offset : Z
}.

(** [lock(io_request<buffers_type> reqs, deadline d)]: locks for shared
    access. *)
Definition lock_buffers `{Platform W} (h : handle_id) (reqs : io_request)
    (d : deadline) (s : st W) : result extent_guard * st W :=
  let bytes := fold_left add_transferred (buffers reqs) 0 in
  do_lock h (offset reqs) bytes false d s.

(** [lock(io_request<const_buffers_type> reqs, deadline d)]: locks for
    exclusive access. *)
Definition lock_const_buffers `{Platform W} (h : handle_id)
    (reqs : io_request) (d : deadline) (s : st W)
    : result extent_guard * st W :=
  let bytes := fold_left add_transferred (buffers reqs) 0 in
  do_lock h (offset reqs) bytes true d s.

(** [try_lock(offset, bytes, exclusive)] *)
Definition try_lock `{Platform W} (h : handle_id) (offset bytes : Z)
    (exclusive : bool) (s : st W) : result extent_guard * st W :=
  do_lock h offset bytes exclusive (relative 0) s.

(** ** Programs over extent guards *)

(** The operations of [extent_guard] that a program applies to the guards
    it owns. *)
Inductive guard_op : Type :=
  | op_unlock (a : nat)
  | op_release (a : nat)
  | op_move_construct (this o : nat)
  | op_move_assign (this o : nat)
  | op_destroy (a : nat).

Definition run_op `{Platform W} (op : guard_op) (σ : gmap nat extent_guard)
    (s : st W) : option (gmap nat extent_guard * st W) :=
  match op with
  | op_unlock a => extent_guard.unlock_at a σ s
  | op_release a => σ' ← extent_guard.release_at a σ; Some (σ', s)
  | op_move_construct this o =>
      σ' ← extent_guard.move_construct this o σ; Some (σ', s)
  | op_move_assign this o => extent_guard.move_assign this o σ s
  | op_destroy a => extent_guard.destructor_at a σ s
  end.

Fixpoint run_ops `{Platform W} (ops : list guard_op)
    (σ : gmap nat extent_guard) (s : st W)
    : option (gmap nat extent_guard * st W) :=
  match ops with
  | [] => Some (σ, s)
  | op :: ops' => r ← run_op op σ s; run_ops ops' r.1 r.2
  end.

Definition is_release (op : guard_op) : bool :=
  match op with op_release _ => true | _ => false end.

(** The locked extent a guard stands for, if it is live. *)
Definition extent_of (g : extent_guard) : list (handle_id * Z * Z) :=
  match _h g with
  | Some h => [(h, _offset g, _length g)]
  | None => []
  end.

(** The extents the live guards of a store stand for. *)
Definition live_extents (σ : gmap nat extent_guard)
    : list (handle_id * Z * Z) :=
  map_to_list σ ≫= λ ag, extent_of ag.2.

(** ** Reading the trace of _lock *)

(** The clock a deadline is measured on: none for an infinite deadline, the
    steady clock for a duration, the system clock for a time point. *)
Definition clock_allowed (d : deadline) (ev : event) : bool :=
  match ev with
  | ev_steady_now _ => match d with relative _ => true | _ => false end
  | ev_system_now _ => match d with absolute _ => true | _ => false end
  | _ => true
  end.

(** The events of the inner [for] loop: clock readings, lock requests on
    [_h] and unlock calls. *)
Definition is_pass_event (ev : event) : bool :=
  match ev with
  | ev_steady_now _ | ev_system_now _ | ev_lock _ _ _ _ _ _
  | ev_unlock _ _ _ => true
  | _ => false
  end.

(** A list of events of the [for] loop under deadline [d]. *)
Definition pass_events (d : deadline) (t : list event) : Prop :=
  forallb (λ ev, is_pass_event ev && clock_allowed d ev) t = true.

(** The shuffles and yields among a list of events. *)
Definition backoffs (t : list event) : list event :=
  omap (λ ev, match ev with
              | ev_random_shuffle _ _ | ev_yield => Some ev
              | _ => None
              end) t.

(** The lock files opened and the handles closed among a list of events. *)
Definition opened (t : list event) : list handle_id :=
  omap (λ ev, match ev with ev_file (value h) => Some h | _ => None end) t.

Definition closed (t : list event) : list handle_id :=
  omap (λ ev, match ev with ev_close h => Some h | _ => None end) t.

(** ** Two concrete runs *)

(** The state in which [_lock] leaves the contended directory when handle 0
    asks for B and A without a deadline. *)
Definition contended_final : st fs_world :=
  match lock_files._lock 1 0%nat [entity_B; entity_A] infinite
          (start contended_world) with
  | finished r => r.2
  | _ => start contended_world
  end.

(** A platform whose lock directory does not exist: [file_handle::file]
    fails with errno 2. *)
Definition missing_directory : Platform unit :=
  {| steady_clock_now := λ w, (0, w);
     system_clock_now := λ w, (0, w);
     file_handle_file := λ w, (errored (EOTHER 2), w);
     handle_close := λ _ w, w;
     io_handle_lock := λ _ _ _ _ _ w, (errored ENOTSUP, w);
     io_handle_unlock := λ _ _ _ w, w;
     random_shuffle := λ l w, (l, w);
     this_thread_yield := λ w, w |}.

(** Two programs over the guards at addresses 1 and 2: one detaches a
    guard with [release], the other destroys every guard. *)
Definition detaching_program : list guard_op :=
  [op_move_construct 3 1; op_release 3; op_unlock 2; op_destroy 1].

Definition scoped_program : list guard_op :=
  [op_move_construct 3 1; op_move_assign 2 3; op_destroy 1; op_destroy 3;
   op_destroy 2].

(** ** Why a pass stops *)

(** The answers to the lock requests among a list of events. *)
Definition lock_replies (t : list event) : list (result extent_guard) :=
  omap (λ ev, match ev with
              | ev_lock _ _ _ _ _ r => Some r
              | _ => None
              end) t.

(** An answer that lets the [for] loop go on: a valid guard. *)
Definition is_granted (r : result extent_guard) : bool :=
  match r with
  | value g => extent_guard.valid g
  | errored _ => false
  end.

(** The readings of either clock among a list of events. *)
Definition clock_readings (t : list event) : list Z :=
  omap (λ ev, match ev with
              | ev_steady_now t | ev_system_now t => Some t
              | _ => None
              end) t.

(** The deadline has passed at the clock reading [t]. *)
Definition deadline_passed (d : deadline) (began_steady end_utc t : Z)
    : bool :=
  match d with
  | infinite => false
  | relative nsecs => began_steady + lock_files.nanoseconds nsecs <=? t
  | absolute _ => end_utc <=? t
  end.

(** The same for the readings of a whole call: a duration is counted from
    the first reading, which the prologue takes. *)
Definition deadline_passed_in (d : deadline) (readings : list Z) : bool :=
  match last readings with
  | None => false
  | Some t =>
      match d with
      | infinite => false
      | relative _ => deadline_passed d (default 0 (head readings)) 0 t
      | absolute utc => deadline_passed d 0 utc t
      end
  end.

(** A third entity for the contended directory. *)
Definition entity_C : entity_type :=
  {| entity_value := 3; entity_exclusive := true |}.

(** * Theorems *)

(** ** handle *)

(** C5: [are_writes_durable] is true exactly for the caching modes none,
    reads and reads_and_metadata, whatever the flags and the native handle
    are; it is a total function, true for reads and false for all. *)
Theorem are_writes_durable_spec :
  (∀ c f v,
     are_writes_durable {| _caching := c; _flags := f; _v := v |}
     = durable_mode c)
  ∧ (∀ h, are_writes_durable h = true
          ↔ _caching h = caching.none ∨ _caching h = caching.reads
            ∨ _caching h = caching.reads_and_metadata)
  ∧ (∀ f v, are_writes_durable
              {| _caching := caching.reads; _flags := f; _v := v |} = true)
  ∧ (∀ f v, are_writes_durable
              {| _caching := caching.all; _flags := f; _v := v |} = false).
Proof.
  split; [by intros [] f v|].
  split; [|by split].
  intros [c f v]; simpl. split.
  - destruct c; cbv; intros Hc; try discriminate Hc; auto.
  - by intros [-> | [-> | ->]].
Qed.

Lemma land_disable_safety_fsyncs (f : Z) :
  (Z.land f flag.disable_safety_fsyncs =? 0) = negb (Z.testbit f 2).
Proof.
  assert (Hbit : Z.land f flag.disable_safety_fsyncs
                 = if Z.testbit f 2 then 4 else 0).
  { apply Z.bits_inj'. intros i Hi. rewrite Z.land_spec.
    change flag.disable_safety_fsyncs with (2 ^ 2).
    rewrite Z.pow2_bits_eqb by lia.
    destruct (Z.eqb_spec 2 i) as [<- | Hne].
    - rewrite andb_true_r. by destruct (Z.testbit f 2).
    - rewrite andb_false_r. destruct (Z.testbit f 2).
      + change 4 with (2 ^ 2). rewrite Z.pow2_bits_eqb by lia.
        symmetry. by apply Z.eqb_neq.
      + by rewrite Z.bits_0. }
  rewrite Hbit. by destruct (Z.testbit f 2).
Qed.

(** C6: [are_safety_fsyncs_issued] is true iff the disable_safety_fsyncs
    flag (bit 2 of the flags) is not set and bit 0 of the caching mode's
    encoding is 1, which are the modes none, reads, reads_and_metadata and
    safety_fsyncs; with the flag set it is false for every caching mode. *)
Theorem are_safety_fsyncs_issued_spec :
  (∀ h, are_safety_fsyncs_issued h
        = negb (Z.testbit (_flags h) 2)
          && Z.testbit (caching.to_int (_caching h)) 0)
  ∧ (∀ c, Z.testbit (caching.to_int c) 0 = fsync_mode c)
  ∧ (∀ c f v, are_safety_fsyncs_issued
                {| _caching := c;
                   _flags := Z.lor f flag.disable_safety_fsyncs;
                   _v := v |} = false).
Proof.
  assert (H1 : ∀ h, are_safety_fsyncs_issued h
        = negb (Z.testbit (_flags h) 2)
          && Z.testbit (caching.to_int (_caching h)) 0).
  { intros [c f v]. unfold are_safety_fsyncs_issued; simpl.
    rewrite land_disable_safety_fsyncs. f_equal. by destruct c. }
  split; [exact H1|]. split; [by intros []|].
  intros c f v. rewrite H1. cbn [_flags _caching].
  rewrite Z.lor_spec. change (Z.testbit flag.disable_safety_fsyncs 2) with true.
  by rewrite orb_true_r.
Qed.

(** ** io_result *)

Lemma fold_add_transferred (bufs : list buffer_type) (acc : Z) :
  fold_left add_transferred bufs acc
  = if bufs is [] then acc else (acc + total_length bufs) mod size_modulus.
Proof.
  revert acc. induction bufs as [|i bufs IH]; intros acc; [done|].
  cbn [fold_left total_length foldr]. rewrite IH. unfold add_transferred.
  destruct bufs as [|j bufs]; cbn [foldr].
  - by rewrite Z.add_0_r.
  - rewrite Zplus_mod_idemp_l. f_equal.
    unfold total_length; cbn [foldr]. lia.
Qed.

(** The first call returns the sum reduced modulo 2^64 and stores it. *)
Lemma bytes_transferred_first (bufs : list buffer_type) :
  bytes_transferred (make_io_result (value bufs))
  = Some (total_length bufs mod size_modulus,
          {| io_base := value bufs;
             _bytes_transferred := total_length bufs mod size_modulus |}).
Proof.
  unfold bytes_transferred, make_io_result; cbn [_bytes_transferred io_base].
  rewrite Z.eqb_refl, fold_add_transferred.
  destruct bufs; [done|]. by rewrite Z.add_0_l.
Qed.

(** A stored count other than [(size_t) -1] is returned as it is. *)
Lemma bytes_transferred_cached (r : io_result) :
  _bytes_transferred r ≠ size_max →
  bytes_transferred r = Some (_bytes_transferred r, r).
Proof.
  intros Hne. unfold bytes_transferred.
  by destruct (Z.eqb_spec (_bytes_transferred r) size_max).
Qed.

Lemma total_length_nonneg (bufs : list buffer_type) :
  Forall (λ i, 0 ≤ i.2) bufs → 0 ≤ total_length bufs.
Proof.
  induction 1 as [|i l Hi _ IH]; unfold total_length in *; cbn [foldr]; lia.
Qed.

(** C9, as amended: when the transferred lengths sum to less than
    [(size_t) -1], the first call of [bytes_transferred] returns their sum,
    and every later call returns that sum from the cache without reading the
    buffer list. *)
Theorem bytes_transferred_sum_cached (bufs : list buffer_type) :
  Forall (λ i, 0 ≤ i.2) bufs →
  total_length bufs < size_max →
  bytes_transferred_as_specified bufs.
Proof.
  intros Hpos Hlt. pose proof (total_length_nonneg bufs Hpos) as H0.
  assert (Hmod : total_length bufs mod size_modulus = total_length bufs).
  { apply Z.mod_small. unfold size_max in Hlt. lia. }
  eexists. split.
  - rewrite bytes_transferred_first, Hmod. reflexivity.
  - intros base'. cbn [_bytes_transferred].
    rewrite bytes_transferred_cached; cbn [_bytes_transferred]; [done | lia].
Qed.

(** Two buffers of 2 and 5 bytes. *)
Lemma bytes_transferred_sum_cached_witness :
  bytes_transferred_as_specified [(0, 2); (4096, 5)].
Proof.
  apply bytes_transferred_sum_cached.
  - repeat constructor; simpl; lia.
  - vm_compute. reflexivity.
Defined.

(** C9, as stated, fails: two buffers of 2^63 bytes each make the count wrap
    to 0, and a count of 2^64 - 1 is taken for the empty cache and computed
    again from whatever the buffer list then holds. *)
Lemma bytes_transferred_counterexample :
  ¬ bytes_transferred_as_specified [(0, 2 ^ 63); (0, 2 ^ 63)]
  ∧ ¬ bytes_transferred_as_specified [(0, 2 ^ 64 - 1)].
Proof.
  split; intros [r' [Hfirst Hcached]].
  - rewrite bytes_transferred_first in Hfirst. vm_compute in Hfirst.
    discriminate Hfirst.
  - rewrite bytes_transferred_first in Hfirst.
    injection Hfirst as <-.
    specialize (Hcached (value [])). vm_compute in Hcached.
    discriminate Hcached.
Qed.

(** ** extent_guard *)

Section extent_guard_facts.
Context `{Platform W}.
Implicit Types (g : extent_guard) (s : st W) (σ : gmap nat extent_guard).

Lemma release_default g : extent_guard.release g = extent_guard.default.
Proof. reflexivity. Qed.

Lemma unlock_live g s h :
  _h g = Some h →
  extent_guard.unlock g s
  = (extent_guard.default, do_unlock h (_offset g) (_length g) s).
Proof. intros Hh. unfold extent_guard.unlock. by rewrite Hh. Qed.

Lemma unlock_invalid g s :
  extent_guard.valid g = false → extent_guard.unlock g s = (g, s).
Proof.
  unfold extent_guard.valid, extent_guard.unlock. by destruct (_h g).
Qed.

Lemma destructor_invalid g s :
  extent_guard.valid g = false → extent_guard.destructor g s = s.
Proof.
  unfold extent_guard.valid, extent_guard.destructor. by destruct (_h g).
Qed.

Lemma destructor_live g s h :
  _h g = Some h →
  extent_guard.destructor g s = do_unlock h (_offset g) (_length g) s.
Proof.
  intros Hh. unfold extent_guard.destructor. rewrite Hh.
  by rewrite (unlock_live g s h Hh).
Qed.

Lemma unlock_calls_app (t1 t2 : list event) :
  unlock_calls (t1 ++ t2) = unlock_calls t1 ++ unlock_calls t2.
Proof. apply omap_app. Qed.

Lemma guard_eta g :
  {| _h := _h g; _offset := _offset g; _length := _length g;
     _exclusive := _exclusive g |} = g.
Proof. by destruct g. Qed.

(** C7: move construction puts the members of the source into the new
    guard and leaves the source invalid, with handle none, offset 0,
    length 0 and exclusive false; no other guard changes; and the
    destruction of the moved-from guard, of a default-constructed guard and
    of any invalid guard leaves the state as it is, so calls no
    [io_handle::unlock]. *)
Theorem move_construct_transfers σ (this o : nat) g s :
  σ !! o = Some g →
  σ !! this = None →
  ∃ σ', extent_guard.move_construct this o σ = Some σ'
    ∧ σ' !! this = Some g
    ∧ σ' !! o = Some {| _h := None; _offset := 0; _length := 0;
                        _exclusive := false |}
    ∧ (∀ a, a ≠ this → a ≠ o → σ' !! a = σ !! a)
    ∧ extent_guard.destructor_at o σ' s = Some (delete o σ', s)
    ∧ extent_guard.destructor extent_guard.default s = s
    ∧ (∀ g', extent_guard.handle g' = None →
             extent_guard.destructor g' s = s).
Proof.
  intros Ho Hthis.
  assert (Hne : this ≠ o) by congruence.
  unfold extent_guard.move_construct, extent_guard.release_at.
  rewrite Hthis, Ho; cbn [mbind option_bind].
  rewrite lookup_insert_ne, Ho by done; cbn [mbind option_bind].
  eexists; split; [reflexivity|].
  rewrite guard_eta.
  split; [by rewrite lookup_insert_ne, lookup_insert_eq|].
  split; [by rewrite lookup_insert_eq|].
  split; [intros a Ha1 Ha2; by rewrite !lookup_insert_ne|].
  split.
  { unfold extent_guard.destructor_at.
    by rewrite lookup_insert_eq. }
  split; [done|].
  intros g' Hg'. apply destructor_invalid.
  unfold extent_guard.valid. unfold extent_guard.handle in Hg'.
  by rewrite Hg'.
Qed.

(** C8: the first [unlock()] of a live guard calls
    [io_handle::unlock(offset, length)] once and leaves the guard with
    handle none, offset 0 and length 0; a second [unlock()] and the
    destruction of the guard then leave the state as it is. *)
Theorem unlock_idempotent g s h :
  _h g = Some h →
  let r := extent_guard.unlock g s in
  r.1 = {| _h := None; _offset := 0; _length := 0; _exclusive := false |}
  ∧ r.2 = do_unlock h (_offset g) (_length g) s
  ∧ trace r.2 = trace s ++ [ev_unlock h (_offset g) (_length g)]
  ∧ (∀ s', extent_guard.unlock r.1 s' = (r.1, s'))
  ∧ (∀ s', extent_guard.destructor r.1 s' = s')
  ∧ unlock_calls (trace (extent_guard.unlock r.1 r.2).2)
    = unlock_calls (trace s) ++ [(h, _offset g, _length g)]
  ∧ unlock_calls (trace (extent_guard.destructor r.1 r.2))
    = unlock_calls (trace s) ++ [(h, _offset g, _length g)].
Proof.
  intros Hh r. subst r. rewrite (unlock_live g s h Hh); cbn [fst snd].
  repeat split; try done.
  all: cbn [extent_guard.unlock extent_guard.destructor extent_guard.default
            _h snd do_unlock trace];
    by rewrite unlock_calls_app.
Qed.

(** C10: move assignment between two guards first unlocks the extent the
    destination holds, when it is live, through its [io_handle]; the
    destination then has the handle, offset, length and exclusive flag of
    the source, the source is invalid with handle none, offset 0 and
    length 0, and no other guard changes. *)
Theorem move_assign_releases σ (this o : nat) (t g : extent_guard) s :
  this ≠ o →
  σ !! this = Some t →
  σ !! o = Some g →
  ∃ σ' s', extent_guard.move_assign this o σ s = Some (σ', s')
    ∧ s' = (extent_guard.unlock t s).2
    ∧ trace s' = trace s ++ match _h t with
                            | Some h => [ev_unlock h (_offset t) (_length t)]
                            | None => []
                            end
    ∧ σ' !! this = Some g
    ∧ σ' !! o = Some {| _h := None; _offset := 0; _length := 0;
                        _exclusive := false |}
    ∧ (∀ a, a ≠ this → a ≠ o → σ' !! a = σ !! a).
Proof.
  intros Hne Hthis Ho.
  unfold extent_guard.move_assign, extent_guard.unlock_at,
    extent_guard.release_at.
  rewrite Hthis; cbn [mbind option_bind fst snd].
  repeat (rewrite ?lookup_insert_eq, ?(lookup_insert_ne _ this o), ?Ho
            by done; cbn [mbind option_bind fst snd]).
  do 2 eexists; split; [reflexivity|].
  cbn [extent_guard.set_handle _h _offset _length _exclusive].
  rewrite guard_eta.
  split; [done|].
  split.
  { unfold extent_guard.unlock. destruct (_h t); cbn [snd do_unlock trace];
      [done | by rewrite app_nil_r]. }
  split; [by rewrite lookup_insert_ne, lookup_insert_eq|].
  split; [by rewrite lookup_insert_eq|].
  intros a Ha1 Ha2. by rewrite !lookup_insert_ne.
Qed.

(** Assigning a guard to itself unlocks it and leaves it invalid. *)
Lemma move_assign_self σ (this : nat) (t : extent_guard) s :
  σ !! this = Some t →
  ∃ σ', extent_guard.move_assign this this σ s
        = Some (σ', (extent_guard.unlock t s).2)
    ∧ σ' !! this = Some extent_guard.default.
Proof.
  intros Hthis.
  unfold extent_guard.move_assign, extent_guard.unlock_at,
    extent_guard.release_at.
  rewrite Hthis; cbn [mbind option_bind fst snd].
  repeat (rewrite ?lookup_insert_eq; cbn [mbind option_bind fst snd]).
  eexists; split; [reflexivity|]. by rewrite lookup_insert_eq.
Qed.

End extent_guard_facts.

(** ** lock_files: the calls of a pass *)

Lemma lock_calls_app (t1 t2 : list event) :
  lock_calls (t1 ++ t2) = lock_calls t1 ++ lock_calls t2.
Proof. apply omap_app. Qed.

Lemma granted_app (t1 t2 : list event) :
  granted (t1 ++ t2) = granted t1 ++ granted t2.
Proof. apply omap_app. Qed.

Lemma held_after_app (t1 t2 : list event) held :
  held_after (t1 ++ t2) held = held_after t2 (held_after t1 held).
Proof. apply fold_left_app. Qed.

Lemma remove_first_here x : remove_first x [x] = [].
Proof. simpl. by rewrite decide_True. Qed.

Section lock_files_facts.
Context `{Platform W}.
Implicit Types (s : st W) (out rest : list entity_type) (d : deadline).

Lemma do_lock_trace (h : handle_id) (offset bytes : Z) (exclusive : bool) d s :
  trace (do_lock h offset bytes exclusive d s).2
  = trace s ++ [ev_lock h offset bytes exclusive d
                  (do_lock h offset bytes exclusive d s).1].
Proof. reflexivity. Qed.

(** Reading the clock makes no lock or unlock call. *)
Lemma timed_out_trace d began_steady end_utc s :
  ∃ evs, trace (lock_files.timed_out d began_steady end_utc s).2
         = trace s ++ evs
    ∧ lock_calls evs = [] ∧ granted evs = [] ∧ unlock_calls evs = []
    ∧ ∀ held, held_after evs held = held.
Proof.
  destruct d as [|nsecs|utc]; cbn [lock_files.timed_out snd].
  - exists []. by rewrite app_nil_r.
  - by eexists [_].
  - by eexists [_].
Qed.

Lemma unlock_trace _h l s :
  trace (lock_files.unlock _h l s) = trace s ++ map (unlock_event _h) l.
Proof.
  revert s. induction l as [|e l IH]; intros s; cbn [lock_files.unlock fold_left map].
  - by rewrite app_nil_r.
  - fold (lock_files.unlock _h l (do_unlock _h (entity_value e) 1 s)).
    rewrite IH. cbn [do_unlock trace]. by rewrite <- app_assoc.
Qed.

Lemma unlock_app _h l1 l2 s :
  lock_files.unlock _h (l1 ++ l2) s
  = lock_files.unlock _h l2 (lock_files.unlock _h l1 s).
Proof. apply fold_left_app. Qed.

(** The callable of the [Undoer], started at an index inside the vector,
    does what [unlock] does on the entities up to that index, last first. *)
Lemma undo_loop_unlock _h out (k : nat) s :
  (k < length out)%nat →
  lock_files.undo_loop _h out k s
  = Some (lock_files.unlock _h (rev (take (S k) out)) s).
Proof.
  revert s. induction k as [|k IH]; intros s Hk.
  - destruct out as [|e out]; [simpl in Hk; lia|]. reflexivity.
  - destruct (lookup_lt_is_Some_2 out (S k) Hk) as [e He].
    cbn [lock_files.undo_loop]. rewrite He; cbn [mbind option_bind].
    rewrite IH by lia.
    rewrite (take_S_r out (S k) e He), rev_app_distr. reflexivity.
Qed.

Lemma held_after_unlocks _h l :
  held_after (map (unlock_event _h) l) [] = [].
Proof. induction l as [|e l IH]; [done|]. exact IH. Qed.

Lemma lock_calls_unlocks _h l : lock_calls (map (unlock_event _h) l) = [].
Proof. induction l as [|e l IH]; [done|]. exact IH. Qed.

(** One run of the [for] loop: it completes [k] iterations, so leaves [n]
    advanced by [k]; it requests a lock for the first [k'] entities, one
    after the other, where [k'] is [k] or [k + 1]; the requests granted are
    those of the first [k] entities; and no lock granted in the loop is
    still held when control leaves it. *)
Lemma for_entities_run lh d began_steady end_utc rest n s :
  let r := lock_files.for_entities lh d began_steady end_utc rest n s in
  ∃ (k k' : nat) evs,
    trace r.2 = trace s ++ evs
    ∧ r.1.2 = n + Z.of_nat k
    ∧ (k ≤ k')%nat ∧ (k' ≤ S k)%nat ∧ (k' ≤ length rest)%nat
    ∧ lock_calls evs = map (lock_request lh) (take k' rest)
    ∧ granted evs = map (lock_request lh) (take k rest)
    ∧ held_after evs [] = []
    ∧ (r.1.1 = lock_files.for_done → k = length rest)
    ∧ (r.1.1 ≠ lock_files.for_done → (k < length rest)%nat).
Proof.
  revert n s. induction rest as [|a rest IH]; intros n s r; subst r.
  { exists O, O, []. cbn [lock_files.for_entities fst snd length take map].
    rewrite app_nil_r, Z.add_0_r. repeat split; try done; lia. }
  cbn [lock_files.for_entities].
  destruct (timed_out_trace d began_steady end_utc s)
    as (cevs & Hc & Hcl & Hcg & _ & Hch).
  destruct (lock_files.timed_out d began_steady end_utc s) as [b c];
    cbn [fst snd] in *.
  destruct b; cbn [fst snd].
  { exists O, O, cevs. rewrite Z.add_0_r, Hch.
    cbn [length take map]. repeat split; try done; lia. }
  pose proof (do_lock_trace lh (entity_value a) 1 (entity_exclusive a)
                zero_deadline c) as Hlk.
  destruct (do_lock lh (entity_value a) 1 (entity_exclusive a)
              zero_deadline c) as [reply s2]; cbn [fst snd] in *.
  destruct reply as [guard|ec].
  2: { exists O, 1%nat, (cevs ++ [ev_lock lh (entity_value a) 1
                                   (entity_exclusive a) zero_deadline
                                   (errored ec)]).
       cbn [fst snd].
       rewrite Hlk, Hc, <- app_assoc, Z.add_0_r, lock_calls_app, granted_app,
         held_after_app, Hcl, Hcg, Hch.
       cbn [length take map]. repeat split; try done; lia. }
  destruct (_h guard) as [gh|] eqn:Hgh.
  2: { unfold extent_guard.valid, extent_guard.destructor.
       rewrite Hgh.
       exists O, 1%nat, (cevs ++ [ev_lock lh (entity_value a) 1
                                   (entity_exclusive a) zero_deadline
                                   (value guard)]).
       cbn [fst snd].
       rewrite Hlk, Hc, <- app_assoc, Z.add_0_r, lock_calls_app, granted_app,
         held_after_app, Hcl, Hcg, Hch.
       cbn [length take map granted omap held_after fold_left held_step
            list_omap].
       unfold extent_guard.valid. rewrite Hgh.
       repeat split; try done; lia. }
  assert (Hv : extent_guard.valid guard = true)
    by (unfold extent_guard.valid; by rewrite Hgh).
  rewrite Hv, (destructor_live guard _ gh Hgh).
  destruct (IH (n + 1) (do_unlock gh (_offset guard) (_length guard) s2))
    as (k & k' & evs & Ht & Hn & Hk1 & Hk2 & Hk3 & Hl & Hg & Hh
        & Hdone & Hnot).
  exists (S k), (S k'),
    (cevs ++ [ev_lock lh (entity_value a) 1 (entity_exclusive a)
                zero_deadline (value guard);
              ev_unlock gh (_offset guard) (_length guard)] ++ evs).
  rewrite Ht, Hn. cbn [trace do_unlock].
  rewrite Hlk, Hc, !lock_calls_app, !granted_app, !held_after_app, Hcl, Hcg,
    Hch, Hl, Hg.
  cbn [length take map app lock_calls granted omap list_omap held_after
       fold_left held_step].
  rewrite Hv. cbn [app]. rewrite Hgh, remove_first_here.
  split; [by rewrite <- !app_assoc|].
  repeat split; try done; try lia.
  - intros Hd. rewrite (Hdone Hd). done.
  - intros Hd. specialize (Hnot Hd). lia.
Qed.

Lemma rev_take_S out (k : nat) (ent : entity_type) :
  out !! k = Some ent → rev (take (S k) out) = ent :: rev (take k out).
Proof.
  intros Hk. rewrite (take_S_r out k ent Hk), rev_app_distr. reflexivity.
Qed.

(** The [Undoer] after a pass that stopped at index [k]. *)
Lemma undo_at_index (lh : handle_id) out (k : nat) (ent : entity_type) s :
  Z.of_nat (length out) < size_modulus →
  out !! k = Some ent →
  lock_files.undo lh out (Some (Z.of_nat k)) s
  = Some (size_max, lock_files.unlock lh (ent :: rev (take k out)) s).
Proof.
  intros Hsize Hk. pose proof (lookup_lt_Some _ _ _ Hk) as Hlt.
  unfold lock_files.undo; cbn [mbind option_bind].
  destruct (Z.eqb_spec (Z.of_nat k) size_max) as [Heq|_].
  { unfold size_max in Heq. lia. }
  rewrite Nat2Z.id, (undo_loop_unlock lh out k s Hlt); cbn [mbind option_bind].
  by rewrite (rev_take_S out k ent Hk).
Qed.

(** A pass that stops at index [k] before the end of the vector: what the
    [for] loop has done and what the inner block does on the way out. *)
Lemma block_after_stop (lh : handle_id) out d began_steady end_utc
    (n0 : option Z) s (ret : handle_id) :
  Z.of_nat (length out) < size_modulus →
  (do_file s).1 = value ret →
  (lock_files.for_entities lh d began_steady end_utc out 0 (do_file s).2).1.1
  ≠ lock_files.for_done →
  let r :=
    lock_files.for_entities lh d began_steady end_utc out 0 (do_file s).2 in
  ∃ (k : nat) (ent : entity_type) evs,
    r.1.2 = Z.of_nat k
    ∧ out !! k = Some ent
    ∧ trace r.2 = trace s ++ ev_file (value ret) :: evs
    ∧ granted evs = map (lock_request lh) (take k out)
    ∧ held_after evs [] = []
    ∧ lock_files.block lh out d began_steady end_utc n0 s
      = Some (match r.1.1 with
              | lock_files.for_return ec => lock_files.block_return ec
              | _ => lock_files.block_failed
              end, size_max,
              lock_files.unlock lh (ent :: rev (take k out))
                (do_close ret r.2)).
Proof.
  intros Hsize Hfile Hexit r.
  destruct (for_entities_run lh d began_steady end_utc out 0 (do_file s).2)
    as (k & k' & evs & Ht & Hn & Hk1 & Hk2 & Hk3 & Hl & Hg & Hh
        & Hdone & Hnot).
  fold r in Ht, Hn, Hdone, Hnot, Hexit.
  specialize (Hnot Hexit).
  destruct (lookup_lt_is_Some_2 out k Hnot) as [ent Hent].
  exists k, ent, evs.
  split; [lia|]. split; [done|]. split.
  { rewrite Ht. cbn [do_file snd trace].
    change (file_handle_file (world s)).1 with (do_file s).1.
    rewrite Hfile, <- app_assoc. reflexivity. }
  split; [done|]. split; [done|].
  unfold lock_files.block. rewrite Hfile. fold r.
  rewrite Hn, Z.add_0_l.
  destruct r.1.1 as [| |ec]; [done| |];
    by rewrite (undo_at_index lh out k ent _ Hsize Hent).
Qed.

(** The events of a pass followed by the closing of the lock file and by
    unlock calls leave nothing held. *)
Lemma held_after_rollback (lh : handle_id) (ret : handle_id) evs l :
  held_after evs [] = [] →
  held_after (ev_file (value ret) :: evs
              ++ ev_close ret :: map (unlock_event lh) l) [] = [].
Proof.
  intros Hh.
  change (ev_file (value ret) :: evs ++ ev_close ret :: map (unlock_event lh) l)
    with ([ev_file (value ret)]
          ++ evs ++ [ev_close ret] ++ map (unlock_event lh) l).
  rewrite !held_after_app.
  change (held_after [ev_file (value ret)] []) with (@nil (handle_id * Z * Z)).
  rewrite Hh. apply held_after_unlocks.
Qed.

(** The calls of the rollback. When a pass does not complete, because a
    try-lock came back without a valid guard, because the deadline had
    passed, or because a lock call failed, at index [k], the locks granted
    in the pass are those of the entities before [k]; the block closes the
    lock file and then makes the calls [unlock] makes for the entity at [k]
    and for the entities before it, last first, before the shuffle and
    before an error is returned. By then no lock of the pass is held any
    more: each was released when its guard left its iteration of the loop
    (see [block_after_stop]). *)
Lemma block_rolls_back (lh : handle_id) out d began_steady end_utc
    (n0 : option Z) s (ret : handle_id) :
  Z.of_nat (length out) < size_modulus →
  (do_file s).1 = value ret →
  (lock_files.for_entities lh d began_steady end_utc out 0 (do_file s).2).1.1
  ≠ lock_files.for_done →
  let r :=
    lock_files.for_entities lh d began_steady end_utc out 0 (do_file s).2 in
  ∃ (k : nat) (ent : entity_type) evs,
    r.1.2 = Z.of_nat k
    ∧ out !! k = Some ent
    ∧ trace r.2 = trace s ++ ev_file (value ret) :: evs
    ∧ granted evs = map (lock_request lh) (take k out)
    ∧ let rolled :=
        lock_files.unlock lh (ent :: rev (take k out)) (do_close ret r.2) in
      lock_files.block lh out d began_steady end_utc n0 s
      = Some (match r.1.1 with
              | lock_files.for_return ec => lock_files.block_return ec
              | _ => lock_files.block_failed
              end, size_max, rolled)
      ∧ trace rolled
        = trace r.2 ++ ev_close ret
            :: map (unlock_event lh) (ent :: rev (take k out))
      ∧ held_after (drop (length (trace s)) (trace rolled)) [] = []
      ∧ (∀ ec fuel, r.1.1 = lock_files.for_return ec →
           lock_files.do_while (S fuel) lh out d began_steady end_utc n0 s
           = finished (errored ec, out, rolled)).
Proof.
  intros Hsize Hfile Hexit r.
  destruct (block_after_stop lh out d began_steady end_utc n0 s ret
              Hsize Hfile Hexit)
    as (k & ent & evs & Hn & Hent & Htr & Hg & Hh & Hblock).
  fold r in Hn, Htr, Hblock.
  exists k, ent, evs.
  assert (Hrolled : trace (lock_files.unlock lh (ent :: rev (take k out))
                             (do_close ret r.2))
      = trace r.2 ++ ev_close ret
          :: map (unlock_event lh) (ent :: rev (take k out))).
  { rewrite unlock_trace. cbn [do_close trace]. by rewrite <- app_assoc. }
  split; [done|]. split; [done|]. split; [done|]. split; [done|].
  intros rolled. subst rolled.
  split; [done|]. split; [done|]. split.
  - rewrite Hrolled, Htr, <- app_assoc, drop_app_length.
    by apply held_after_rollback.
  - intros ec fuel Hec. cbn [lock_files.do_while].
    rewrite Hblock, Hec. reflexivity.
Qed.

(** The [Undoer] always leaves [n] at [(size_t) -1]. *)
Lemma undo_leaves_size_max (lh : handle_id) out (n : option Z) s u :
  lock_files.undo lh out n s = Some u → u.1 = size_max.
Proof.
  unfold lock_files.undo. destruct n as [n|]; [|done]; cbn [mbind option_bind].
  destruct (Z.eqb_spec n size_max) as [->|_].
  - by intros [= <-].
  - destruct (lock_files.undo_loop lh out (Z.to_nat n) s);
      cbn [mbind option_bind]; [by intros [= <-] | done].
Qed.

(** After the inner block [n] is the size of the vector when the pass
    completed and [(size_t) -1] in every other case. *)
Lemma block_leaves_n (lh : handle_id) out d began_steady end_utc
    (n0 : option Z) s x n' s' :
  lock_files.block lh out d began_steady end_utc n0 s = Some (x, n', s') →
  if x is lock_files.block_continue then n' = Z.of_nat (length out)
  else n' = size_max.
Proof.
  unfold lock_files.block.
  destruct (do_file s).1 as [ret|ec].
  2: { destruct (lock_files.undo lh out n0 (do_file s).2) as [u|] eqn:Hu;
         cbn [mbind option_bind]; [|done].
       intros [= <- <- <-]. by apply undo_leaves_size_max in Hu. }
  destruct (for_entities_run lh d began_steady end_utc out 0 (do_file s).2)
    as (k & k' & evs & Ht & Hn & Hk1 & Hk2 & Hk3 & Hl & Hg & Hh
        & Hdone & Hnot).
  destruct (lock_files.for_entities lh d began_steady end_utc out 0
              (do_file s).2) as [[fx fn] fs]; cbn [fst snd] in *.
  destruct fx as [| |ec].
  - intros [= <- <- <-]. rewrite Hn, (Hdone eq_refl). lia.
  - destruct (lock_files.undo lh out (Some fn) (do_close ret fs)) as [u|] eqn:Hu;
      cbn [mbind option_bind]; [|done].
    intros [= <- <- <-]. by apply undo_leaves_size_max in Hu.
  - destruct (lock_files.undo lh out (Some fn) (do_close ret fs)) as [u|] eqn:Hu;
      cbn [mbind option_bind]; [|done].
    intros [= <- <- <-]. by apply undo_leaves_size_max in Hu.
Qed.

(** The body of the [do] loop runs once: whatever way the inner block is
    left, the test [n < out.entities.size()] fails, and a pass left through
    [goto failed] ends the call with success. *)
Lemma do_while_single_pass (lh : handle_id) out d began_steady end_utc
    (n0 : option Z) s (fuel : nat) :
  Z.of_nat (length out) < size_modulus →
  (∀ l w, length (random_shuffle l w).1 = length l) →
  lock_files.do_while (S fuel) lh out d began_steady end_utc n0 s
  = match lock_files.block lh out d began_steady end_utc n0 s with
    | None => undefined_behaviour
    | Some (lock_files.block_return ec, _, s') => finished (errored ec, out, s')
    | Some (lock_files.block_continue, _, s') => finished (value (), out, s')
    | Some (lock_files.block_failed, _, s') =>
        finished (value (), (do_random_shuffle out s').1,
                  do_yield (do_random_shuffle out s').2)
    end.
Proof.
  intros Hsize Hshuffle. cbn [lock_files.do_while].
  destruct (lock_files.block lh out d began_steady end_utc n0 s)
    as [[[x n'] s']|] eqn:Hb; [|done].
  apply block_leaves_n in Hb.
  destruct x as [| |ec]; [| |done].
  - rewrite Hb, Z.ltb_irrefl. reflexivity.
  - rewrite Hb. cbn [do_random_shuffle fst]. rewrite Hshuffle.
    destruct (Z.ltb_spec size_max (Z.of_nat (length out))) as [Hlt|_]; [|done].
    unfold size_max in Hlt. lia.
Qed.

(** A pass left through [goto failed] is not tried again: the call returns
    success right after the shuffle and the yield. *)
Lemma goto_failed_returns_success (lh : handle_id) out d began_steady end_utc
    (n0 : option Z) s (ret : handle_id) (fuel : nat) :
  Z.of_nat (length out) < size_modulus →
  (∀ l w, length (random_shuffle l w).1 = length l) →
  (do_file s).1 = value ret →
  (lock_files.for_entities lh d began_steady end_utc out 0 (do_file s).2).1.1
  = lock_files.for_goto_failed →
  ∃ s', lock_files.block lh out d began_steady end_utc n0 s
        = Some (lock_files.block_failed, size_max, s')
    ∧ lock_files.do_while (S fuel) lh out d began_steady end_utc n0 s
      = finished (value (), (do_random_shuffle out s').1,
                  do_yield (do_random_shuffle out s').2)
    ∧ held_after (drop (length (trace s)) (trace s')) [] = [].
Proof.
  intros Hsize Hshuffle Hfile Hexit.
  destruct (block_after_stop lh out d began_steady end_utc n0 s ret
              Hsize Hfile)
    as (k & ent & evs & _ & _ & Htr & _ & Hh & Hb).
  { by rewrite Hexit. }
  rewrite Hexit in Hb. eexists. split; [exact Hb|]. split.
  - by rewrite (do_while_single_pass lh out d began_steady end_utc n0 s fuel
                  Hsize Hshuffle), Hb.
  - rewrite unlock_trace. cbn [do_close trace].
    rewrite Htr, <- !app_assoc, drop_app_length.
    by apply (held_after_rollback lh ret evs (ent :: rev (take k out))).
Qed.

(** A pass that completes leaves nothing held either: every guard is
    destroyed at the end of the iteration that obtained it. *)
Lemma completed_pass_holds_nothing (lh : handle_id) out d began_steady end_utc
    s :
  let r := lock_files.for_entities lh d began_steady end_utc out 0 s in
  held_after (drop (length (trace s)) (trace r.2)) [] = [].
Proof.
  intros r.
  destruct (for_entities_run lh d began_steady end_utc out 0 s)
    as (k & k' & evs & Ht & _ & _ & _ & _ & _ & _ & Hh & _).
  fold r in Ht. by rewrite Ht, drop_app_length.
Qed.

(** With a deadline of zero and a steady clock that does not run backwards
    between its first two readings, the first test of the deadline ends the
    call, on any platform: no lock is requested, the [Undoer] unlocks the
    first entity, and the timeout error is returned. *)
Lemma _lock_zero_deadline_any_platform (lh : handle_id) (e0 : entity_type)
    rest s (ret : handle_id) (fuel : nat) :
  let s0 := do_steady_now s in
  let s1 := do_file s0.2 in
  let s2 := do_steady_now s1.2 in
  s1.1 = value ret →
  s0.1 ≤ s2.1 →
  lock_files._lock (S fuel) lh (e0 :: rest) zero_deadline s
  = finished (errored ETIMEDOUT, e0 :: rest,
              do_unlock lh (entity_value e0) 1 (do_close ret s2.2)).
Proof.
  intros s0 s1 s2 Hfile Hclock.
  unfold zero_deadline.
  cbn [lock_files._lock lock_files.start_clocks fst snd lock_files.do_while].
  unfold lock_files.block. fold s0. fold s1. rewrite Hfile.
  cbn [lock_files.for_entities lock_files.timed_out fst snd]. fold s2.
  change (lock_files.nanoseconds 0) with 0.
  destruct (Z.leb_spec (s0.1 + 0) s2.1) as [_|Hlt]; [|lia].
  cbn [fst snd lock_files.undo mbind option_bind].
  change (0 =? size_max) with false. cbv iota.
  reflexivity.
Qed.

End lock_files_facts.

(** ** lock_files on the lock-table platform *)

Lemma drop_lock_not_held (h : handle_id) (offset bytes : Z) ls :
  Forall (λ l, bl_holder l ≠ h) ls → drop_lock h offset bytes ls = ls.
Proof.
  induction 1 as [|l ls Hl _ IH]; [done|].
  cbn [drop_lock]. unfold same_lock.
  destruct (Nat.eqb_spec h (bl_holder l)) as [->|_]; [done|].
  cbn [andb]. by rewrite IH.
Qed.

Lemma fs_shuffle_permutes (l : list entity_type) (w : fs_world) :
  (fs_shuffle l w).1 ≡ₚ l.
Proof.
  unfold fs_shuffle, rotate; simpl.
  rewrite Permutation_app_comm. by rewrite take_drop.
Qed.

(** C3: with a deadline of zero, when some requested entity is held
    exclusively by another handle and the caller holds nothing, [_lock]
    returns the timeout error after one pass in which it requests no lock;
    the lock table is then what it was, so the caller holds nothing, and a
    second caller's try-lock on a requested entity that nobody else holds
    is granted. *)
Theorem _lock_zero_deadline_times_out (w : fs_world) (h other : handle_id)
    (out : list entity_type) (e : entity_type) :
  e ∈ out →
  {| bl_holder := other; bl_offset := entity_value e; bl_bytes := 1;
     bl_exclusive := true |} ∈ fs_locks w →
  other ≠ h →
  Forall (λ l, bl_holder l ≠ h) (fs_locks w) →
  ∃ s',
    (∀ fuel, lock_files._lock (S fuel) h out zero_deadline (start w)
             = finished (errored ETIMEDOUT, out, s'))
    ∧ lock_calls (trace s') = []
    ∧ (∃ t0 t1 ret e0, trace s' = [ev_steady_now t0; ev_file (value ret);
                                   ev_steady_now t1; ev_close ret;
                                   ev_unlock h (entity_value e0) 1])
    ∧ fs_locks (world s') = fs_locks w
    ∧ locks_of h (world s') = []
    ∧ ∀ (h2 : handle_id) (e2 : entity_type),
        e2 ∈ out →
        existsb (conflicts h2 (entity_value e2) 1 (entity_exclusive e2))
          (fs_locks w) = false →
        (fs_lock h2 (entity_value e2) 1 (entity_exclusive e2) zero_deadline
           (world s')).1
        = value (extent_guard.make h2 (entity_value e2) 1
                   (entity_exclusive e2)).
Proof.
  intros He Hother Hne Hnone.
  destruct out as [|e0 rest]; [by apply elem_of_nil in He|].
  assert (Hclock : (fs_steady w + 0 <=? fs_steady w + Z.of_nat (fs_tick w))
                   = true) by (apply Z.leb_le; lia).
  eexists. split.
  { intros fuel.
    cbn [lock_files._lock lock_files.start_clocks zero_deadline
         lock_files.do_while lock_files.block lock_files.for_entities
         lock_files.timed_out do_steady_now do_file do_close steady_clock_now
         file_handle_file handle_close fs_platform fs_steady_now fs_file
         start world trace fst snd fs_steady fs_tick].
    change (lock_files.nanoseconds 0) with 0. rewrite Hclock.
    cbn [fst snd lock_files.undo mbind option_bind].
    change (0 =? size_max) with false. cbv iota.
    cbn [Z.to_nat lock_files.undo_loop lookup list_lookup mbind option_bind
         fst snd].
    reflexivity. }
  simpl.
  assert (Hsame : drop_lock h (entity_value e0) 1 (fs_locks w) = fs_locks w)
    by by apply drop_lock_not_held.
  split; [done|]. split; [by do 4 eexists|]. split; [done|]. split.
  { unfold locks_of. simpl. rewrite Hsame.
    clear -Hnone. induction Hnone as [|l ls Hl _ IH]; [done|].
    rewrite filter_cons. by destruct (decide (bl_holder l = h)). }
  intros h2 e2 _ Hfree. unfold fs_lock. simpl.
  by rewrite Hsame, Hfree.
Qed.

(** C4, on the contended directory: handle 0 asks for B and A with no
    deadline while handle 9 holds A. The pass obtains B, is refused A and
    rolls back; the call then shuffles, yields and returns success, without
    a second pass and with no lock of handle 0 in the table. *)
Theorem _lock_failed_pass_reports_success (fuel : nat) :
  ∃ s',
    lock_files._lock (S fuel) 0%nat [entity_B; entity_A] infinite
      (start contended_world)
    = finished (value (), [entity_A; entity_B], s')
    ∧ trace s'
      = [ev_file (value 100%nat);
         ev_lock 0%nat 2 1 true zero_deadline
           (value (extent_guard.make 0%nat 2 1 true));
         ev_unlock 0%nat 2 1;
         ev_lock 0%nat 1 1 true zero_deadline (value extent_guard.default);
         ev_close 100%nat;
         ev_unlock 0%nat 1 1;
         ev_unlock 0%nat 2 1;
         ev_random_shuffle [entity_B; entity_A] [entity_A; entity_B];
         ev_yield]
    ∧ locks_of 0%nat (world s') = []
    ∧ fs_locks (world s') = fs_locks contended_world.
Proof.
  eexists. split; [vm_compute; reflexivity|].
  by vm_compute.
Qed.

(** C2, on the contended directory: handle 0 asks for C, B and A with no
    deadline while handle 9 holds A. The pass is granted C and B and is
    refused A, so it does not complete. Each granted lock is released by
    its guard at the end of the iteration that obtained it, in the order of
    acquisition (C, then B), so when the loop is left handle 0 holds
    nothing; only then does the rollback run, and its unlock calls, for A
    (never granted), B and C, release nothing. *)
Theorem _lock_rollback_finds_nothing_held (fuel : nat) :
  let r :=
    lock_files.for_entities 0%nat infinite 0 0
      [entity_C; entity_B; entity_A] 0 (do_file (start contended_world)).2 in
  r.1.1 = lock_files.for_goto_failed
  ∧ r.1.2 = 2
  ∧ trace r.2
    = [ev_file (value 100%nat);
       ev_lock 0%nat 3 1 true zero_deadline
         (value (extent_guard.make 0%nat 3 1 true));
       ev_unlock 0%nat 3 1;
       ev_lock 0%nat 2 1 true zero_deadline
         (value (extent_guard.make 0%nat 2 1 true));
       ev_unlock 0%nat 2 1;
       ev_lock 0%nat 1 1 true zero_deadline (value extent_guard.default)]
  ∧ granted (trace r.2)
    = [lock_request 0%nat entity_C; lock_request 0%nat entity_B]
  ∧ unlock_calls (trace r.2) = [(0%nat, 3, 1); (0%nat, 2, 1)]
  ∧ held_after (trace r.2) [] = []
  ∧ locks_of 0%nat (world r.2) = []
  ∧ ∃ s',
      lock_files._lock (S fuel) 0%nat [entity_C; entity_B; entity_A] infinite
        (start contended_world)
      = finished (value (), [entity_B; entity_A; entity_C], s')
      ∧ trace s'
        = trace r.2
          ++ [ev_close 100%nat;
              ev_unlock 0%nat 1 1;
              ev_unlock 0%nat 2 1;
              ev_unlock 0%nat 3 1;
              ev_random_shuffle [entity_C; entity_B; entity_A]
                [entity_B; entity_A; entity_C];
              ev_yield]
      ∧ fs_locks (world s') = fs_locks (world r.2).
Proof.
  cbv zeta. do 7 (split; [by vm_compute|]).
  eexists. split; [vm_compute; reflexivity|].
  by vm_compute.
Qed.

(** On the free directory the pass completes and the call returns success;
    each lock was released when its guard went out of scope, so the table
    is empty again. *)
Lemma _lock_completed_pass_example (fuel : nat) :
  ∃ s',
    lock_files._lock (S fuel) 0%nat [entity_B; entity_A] infinite
      (start free_world)
    = finished (value (), [entity_B; entity_A], s')
    ∧ trace s'
      = [ev_file (value 100%nat);
         ev_lock 0%nat 2 1 true zero_deadline
           (value (extent_guard.make 0%nat 2 1 true));
         ev_unlock 0%nat 2 1;
         ev_lock 0%nat 1 1 true zero_deadline
           (value (extent_guard.make 0%nat 1 1 true));
         ev_unlock 0%nat 1 1;
         ev_close 100%nat]
    ∧ fs_locks (world s') = [].
Proof.
  eexists. split; [vm_compute; reflexivity|].
  by vm_compute.
Qed.

(** ** The theorems at concrete inputs *)

(** The rollback on the contended directory: B is obtained, A refused. *)
Lemma block_rolls_back_witness :
  ∃ (k : nat) (ent : entity_type),
    [entity_B; entity_A] !! k = Some ent
    ∧ lock_files.block 0%nat [entity_B; entity_A] infinite 0 0 None
        (start contended_world)
      = Some (lock_files.block_failed, size_max,
              lock_files.unlock 0%nat
                (ent :: rev (take k [entity_B; entity_A]))
                (do_close 100%nat
                   (lock_files.for_entities 0%nat infinite 0 0
                      [entity_B; entity_A] 0
                      (do_file (start contended_world)).2).2)).
Proof.
  destruct (block_rolls_back 0%nat [entity_B; entity_A] infinite 0 0 None
              (start contended_world) 100%nat)
    as (k & ent & evs & _ & Hent & _ & _ & Hb & _).
  - vm_compute. reflexivity.
  - reflexivity.
  - vm_compute. discriminate.
  - exists k, ent. split; [exact Hent | exact Hb].
Defined.

(** The zero deadline on the contended directory. *)
Lemma _lock_zero_deadline_times_out_witness :
  ∃ s',
    lock_files._lock 1 0%nat [entity_B; entity_A] zero_deadline
      (start contended_world)
    = finished (errored ETIMEDOUT, [entity_B; entity_A], s')
    ∧ fs_locks (world s') = fs_locks contended_world.
Proof.
  destruct (_lock_zero_deadline_times_out contended_world 0%nat 9%nat
              [entity_B; entity_A] entity_A)
    as (s' & Hrun & _ & _ & Hlocks & _).
  - repeat constructor.
  - repeat constructor.
  - discriminate.
  - repeat constructor. simpl. discriminate.
  - exists s'. split; [exact (Hrun O) | exact Hlocks].
Defined.

(** Moving the guard at address 1 into a new guard at address 3. *)
Lemma move_construct_transfers_witness :
  ∃ σ', extent_guard.move_construct 3 1 two_guards = Some σ'
    ∧ σ' !! 3%nat = Some guard_1
    ∧ σ' !! 1%nat = Some extent_guard.default.
Proof.
  destruct (move_construct_transfers two_guards 3 1 guard_1
              (start contended_world))
    as (σ' & Hm & Hnew & Hold & _).
  - reflexivity.
  - reflexivity.
  - exists σ'. split; [exact Hm|]. split; [exact Hnew | exact Hold].
Defined.

(** Unlocking the live guard of handle 7. *)
Lemma unlock_idempotent_witness :
  (extent_guard.unlock guard_1 (start contended_world)).1
  = extent_guard.default
  ∧ trace (extent_guard.unlock guard_1 (start contended_world)).2
    = [ev_unlock 7%nat 10 1].
Proof.
  destruct (unlock_idempotent guard_1 (start contended_world) 7%nat)
    as (Hg & _ & Ht & _).
  - reflexivity.
  - split; [exact Hg | exact Ht].
Defined.

(** Assigning the guard at address 1 to the live guard at address 2. *)
Lemma move_assign_releases_witness :
  ∃ σ' s', extent_guard.move_assign 2 1 two_guards (start contended_world)
           = Some (σ', s')
    ∧ trace s' = [ev_unlock 8%nat 20 4]
    ∧ σ' !! 2%nat = Some guard_1
    ∧ σ' !! 1%nat = Some extent_guard.default.
Proof.
  destruct (move_assign_releases two_guards 2 1 guard_2 guard_1
              (start contended_world))
    as (σ' & s' & Hm & _ & Ht & Hthis & Ho & _).
  - discriminate.
  - reflexivity.
  - reflexivity.
  - exists σ', s'. split; [exact Hm|]. split; [exact Ht|].
    split; [exact Hthis | exact Ho].
Defined.

(** ** The stream printers *)

(** A value of an enumeration is one of the first [k] naturals or at least
    [k]. *)
Lemma small_or_large (k : nat) (v : Z) :
  0 ≤ v → Z.of_nat k ≤ v ∨ ∃ i : nat, (i < k)%nat ∧ v = Z.of_nat i.
Proof.
  intros Hv. destruct (Z.le_gt_cases (Z.of_nat k) v) as [Hle|Hgt]; [by left|].
  right. exists (Z.to_nat v). split; lia.
Qed.

Tactic Notation "enum_cases" integer(k) ident(i) :=
  do k (destruct i as [|i]; [reflexivity|]); exfalso; lia.

Ltac large_value v Hle :=
  destruct v as [|p|p]; [lia| |lia];
  do 5 (try (destruct p as [p|p|]; try lia; try reflexivity)).

(** X1: the printer of [mode] writes the identifier of the enumerator for
    each of the seven enumerators and [<unknown>] for every other value, so
    two modes print the same text only when they are the same mode. *)
Theorem print_mode_names :
  (∀ n : N,
     print_mode (Z.of_N n)
     = "afio::handle::mode::"
       +:+ match mode.of_int (Z.of_N n) with
           | Some m => mode.name m
           | None => "<unknown>"
           end)
  ∧ (∀ m, mode.of_int (mode.to_int m) = Some m)
  ∧ (∀ a b, print_mode (mode.to_int a) = print_mode (mode.to_int b) → a = b).
Proof.
  split; [|split].
  - intros n. pose proof (N2Z.is_nonneg n) as Hn.
    generalize dependent (Z.of_N n). intros v Hv.
    destruct (small_or_large 10 v Hv) as [Hle|(i & Hi & ->)].
    + unfold print_mode. cbn [length]. cbn [Z.of_nat Pos.of_succ_nat Pos.succ] in *.
      destruct (Z.leb_spec 10 v) as [_|Hlt]; [|lia].
      large_value v Hle.
    + enum_cases 10 i.
  - by intros [].
  - intros [] []; first [reflexivity | intros Heq; vm_compute in Heq;
                                       discriminate Heq].
Qed.

(** X2: the printer of [creation] writes the identifier of each of the four
    enumerators and [<unknown>] for every other value; different
    enumerators print different text. *)
Theorem print_creation_names :
  (∀ n : N,
     print_creation (Z.of_N n)
     = "afio::handle::creation::"
       +:+ match creation.of_int (Z.of_N n) with
           | Some c => creation.name c
           | None => "<unknown>"
           end)
  ∧ (∀ c, creation.of_int (creation.to_int c) = Some c)
  ∧ (∀ a b, print_creation (creation.to_int a)
            = print_creation (creation.to_int b) → a = b).
Proof.
  split; [|split].
  - intros n. pose proof (N2Z.is_nonneg n) as Hn.
    generalize dependent (Z.of_N n). intros v Hv.
    destruct (small_or_large 4 v Hv) as [Hle|(i & Hi & ->)].
    + unfold print_creation. cbn [length].
      cbn [Z.of_nat Pos.of_succ_nat Pos.succ] in *.
      destruct (Z.leb_spec 4 v) as [_|Hlt]; [|lia].
      large_value v Hle.
    + enum_cases 4 i.
  - by intros [].
  - intros [] []; first [reflexivity | intros Heq; vm_compute in Heq;
                                       discriminate Heq].
Qed.

(** X3: the printer of [caching] writes the identifier of each of the eight
    enumerators, although [all] = 4 and [reads_and_metadata] = 5 are
    declared in the other order, and [<unknown>] for every other value;
    different enumerators print different text. *)
Theorem print_caching_names :
  (∀ n : N,
     print_caching (Z.of_N n)
     = "afio::handle::caching::"
       +:+ match caching_of_int (Z.of_N n) with
           | Some c => caching_name c
           | None => "<unknown>"
           end)
  ∧ (∀ c, caching_of_int (caching.to_int c) = Some c)
  ∧ (∀ a b, print_caching (caching.to_int a)
            = print_caching (caching.to_int b) → a = b).
Proof.
  split; [|split].
  - intros n. pose proof (N2Z.is_nonneg n) as Hn.
    generalize dependent (Z.of_N n). intros v Hv.
    destruct (small_or_large 8 v Hv) as [Hle|(i & Hi & ->)].
    + unfold print_caching. cbn [length].
      cbn [Z.of_nat Pos.of_succ_nat Pos.succ] in *.
      destruct (Z.leb_spec 8 v) as [_|Hlt]; [|lia].
      large_value v Hle.
    + enum_cases 8 i.
  - by intros [].
  - intros [] []; first [reflexivity | intros Heq; vm_compute in Heq;
                                       discriminate Heq].
Qed.

(** X4: the printer of [source_type] writes the identifier of each of the
    five enumerators and [<unknown>] for every value above 5; its bounds
    test lets the value 5 through, one past the last name, where the table
    is read outside its entries. *)
Theorem print_source_type_bounds :
  (∀ k, print_source_type (source_type.to_int k)
        = Some ("llfio::path_discovery::discovered_path::source_type::"
                +:+ source_type.name k))
  ∧ print_source_type 5 = None
  ∧ (∀ n : N,
       print_source_type (6 + Z.of_N n)
       = Some "llfio::path_discovery::discovered_path::source_type::<unknown>").
Proof.
  split; [by intros []|]. split; [done|].
  intros n. unfold print_source_type. cbn [length].
  change (Z.of_nat 5) with 5.
  destruct (Z.ltb_spec 5 (6 + Z.of_N n)) as [_|Hge]; [done|lia].
Qed.

(** Testing a flag that is a single bit reads that bit. *)
Lemma flag_set_bit (v : Z) (k : Z) :
  0 ≤ k → flag_set v (Z.shiftl 1 k) = Z.testbit v k.
Proof.
  intros Hk. unfold flag_set. rewrite Z.shiftl_1_l.
  assert (Hbit : Z.land v (2 ^ k) = if Z.testbit v k then 2 ^ k else 0).
  { apply Z.bits_inj'. intros i Hi.
    rewrite Z.land_spec, Z.pow2_bits_eqb by lia.
    destruct (Z.eqb_spec k i) as [<- | Hne].
    - rewrite andb_true_r. destruct (Z.testbit v k); [|by rewrite Z.bits_0].
      by rewrite Z.pow2_bits_eqb, Z.eqb_refl by lia.
    - rewrite andb_false_r. destruct (Z.testbit v k); [|by rewrite Z.bits_0].
      rewrite Z.pow2_bits_eqb by lia. symmetry. by apply Z.eqb_neq. }
  rewrite Hbit. destruct (Z.testbit v k); [|done].
  destruct (Z.eqb_spec (2 ^ k) 0) as [Heq|_]; [|done].
  pose proof (Z.pow_pos_nonneg 2 k). lia.
Qed.

(** X5: the printer of [flag] depends on the five named bits only: it
    writes [none] when none of them is set, whatever other bits are, the
    name alone when one is set, and the names in the order of the
    declaration, separated by bars and in parentheses, when several are. *)
Theorem print_flag_names (v : Z) :
  print_flag v
  = "afio::handle::flag::"
    +:+ match flag_names v with
        | [] => "none"
        | [x] => x
        | l => "(" +:+ join_bar l +:+ ")"
        end.
Proof.
  unfold print_flag, flag_names, flag.win_delete_on_last_close,
    flag.posix_unlink_on_first_close, flag.disable_safety_fsyncs,
    flag.overlapped, flag.byte_lock_insanity.
  rewrite !flag_set_bit by lia.
  destruct (Z.testbit v 0), (Z.testbit v 1), (Z.testbit v 2),
    (Z.testbit v 28), (Z.testbit v 29); reflexivity.
Qed.

(** The text depends on the named bits only. *)
Lemma print_flag_bits (v : Z) :
  print_flag v = print_flag (flag_of_bits (flag_bits v)).
Proof.
  unfold print_flag at 1. unfold flag_bits, flag.win_delete_on_last_close,
    flag.posix_unlink_on_first_close, flag.disable_safety_fsyncs,
    flag.overlapped, flag.byte_lock_insanity.
  rewrite !flag_set_bit by lia.
  destruct (Z.testbit v 0), (Z.testbit v 1), (Z.testbit v 2),
    (Z.testbit v 28), (Z.testbit v 29); vm_compute; reflexivity.
Qed.

Lemma print_flag_of_bits_injective :
  ∀ x y : bool * bool * bool * bool * bool,
    print_flag (flag_of_bits x) = print_flag (flag_of_bits y) → x = y.
Proof. apply (bool_decide_unpack _). vm_compute. exact I. Qed.

(** X6: two flag values print the same text exactly when they agree on the
    five named bits. *)
Theorem print_flag_injective (a b : Z) :
  print_flag a = print_flag b ↔ flag_bits a = flag_bits b.
Proof.
  split.
  - rewrite (print_flag_bits a), (print_flag_bits b).
    apply print_flag_of_bits_injective.
  - intros Heq. by rewrite (print_flag_bits a), (print_flag_bits b), Heq.
Qed.

(** ** handle: the queries together, the constructors *)

(** X7: the caching modes with durable writes are the modes that issue
    safety fsyncs other than [safety_fsyncs] itself, so a handle with
    durable writes issues safety fsyncs unless the flag disables them;
    [none] is the only mode with durable writes and uncached reads, and
    [only_metadata] the only one with neither cached reads nor durable
    writes. *)
Theorem caching_queries_related (v : native_handle_type) (c : caching.t)
    (f : Z) :
  let h := handle_of v c f in
  are_writes_durable h
  = fsync_mode c && negb (caching.eqb c caching.safety_fsyncs)
  ∧ are_writes_durable h && negb (Z.testbit f 2)
    = are_writes_durable h && are_safety_fsyncs_issued h
  ∧ negb (are_reads_from_cache h) && are_writes_durable h
    = caching.eqb c caching.none
  ∧ negb (are_reads_from_cache h) && negb (are_writes_durable h)
    = caching.eqb c caching.only_metadata.
Proof.
  intros h. subst h.
  split; [by destruct c|]. split; [|by destruct c].
  unfold are_safety_fsyncs_issued, handle_of; cbn [_flags _caching].
  rewrite land_disable_safety_fsyncs.
  destruct c; cbv [are_writes_durable _caching caching.eqb caching.to_int
                   Z.eqb orb andb]; try reflexivity;
    by destruct (Z.testbit f 2).
Qed.

(** A moved-from handle is in the state of a default-constructed one,
    with caching [none] and no flags, whatever it was before; it therefore
    reports uncached reads, durable writes and safety fsyncs. The new handle
    has the caching mode and the flags the source had. *)
Lemma handle_move_resets (empty : native_handle_type) (o : handle) :
  let r := handle_move empty o in
  r.2 = handle_default empty
  ∧ _caching r.1 = _caching o
  ∧ _flags r.1 = _flags o
  ∧ are_writes_durable r.1 = are_writes_durable o
  ∧ are_safety_fsyncs_issued r.1 = are_safety_fsyncs_issued o
  ∧ are_reads_from_cache r.2 = false
  ∧ are_writes_durable r.2 = true
  ∧ are_safety_fsyncs_issued r.2 = true.
Proof. by repeat split. Qed.

(** ** io_result: repeated calls *)

(** X8: on a result that holds a buffer list, [bytes_transferred] returns
    the sum of the lengths modulo 2^64, and calling it again returns the
    same count and leaves the object as it is, also when the count had
    wrapped or is [(size_t) -1]; on a result that holds an error the call
    has no value to sum. *)
Theorem bytes_transferred_stable (bufs : list buffer_type) (e : errc) :
  let n := total_length bufs mod size_modulus in
  let r1 := {| io_base := value bufs; _bytes_transferred := n |} in
  bytes_transferred (make_io_result (value bufs)) = Some (n, r1)
  ∧ bytes_transferred r1 = Some (n, r1)
  ∧ 0 ≤ n < size_modulus
  ∧ bytes_transferred (make_io_result (errored e)) = None.
Proof.
  intros n r1. split; [apply bytes_transferred_first|].
  split; [|split; [apply Z.mod_pos_bound; done | done]].
  destruct (Z.eq_dec n size_max) as [Heq|Hne].
  - assert (Hr : make_io_result (value bufs) = r1)
      by (unfold make_io_result, r1; by rewrite Heq).
    rewrite <- Hr at 1. apply bytes_transferred_first.
  - by apply bytes_transferred_cached.
Qed.

(** ** io_handle: the lock overloads *)

(** X9: locking the extent of an i/o request makes one [lock] call at the
    offset of the request with the given deadline, shared for scatter
    buffers and exclusive for gather buffers, for as many bytes as the
    buffer lengths sum to modulo 2^64; a request without buffers asks for
    length 0, the length that stands for the whole file. [try_lock] makes
    the call with a deadline of zero, which is the request [_lock] makes for
    an entity. *)
Theorem lock_overloads_request `{Platform W} (h : handle_id)
    (reqs : io_request) (d : deadline) (e : entity_type) (s : st W) :
  let bytes := total_length (buffers reqs) mod size_modulus in
  lock_buffers h reqs d s = do_lock h (offset reqs) bytes false d s
  ∧ lock_const_buffers h reqs d s = do_lock h (offset reqs) bytes true d s
  ∧ lock_calls (trace (lock_buffers h reqs d s).2)
    = lock_calls (trace s) ++ [(h, offset reqs, bytes, false, d)]
  ∧ lock_calls (trace (lock_const_buffers h reqs d s).2)
    = lock_calls (trace s) ++ [(h, offset reqs, bytes, true, d)]
  ∧ lock_buffers h {| buffers := []; offset := offset reqs |} d s
    = do_lock h (offset reqs) 0 false d s
  ∧ lock_calls (trace (try_lock h (entity_value e) 1 (entity_exclusive e)
                         s).2)
    = lock_calls (trace s) ++ [lock_request h e].
Proof.
  intros bytes.
  assert (Hsum : fold_left add_transferred (buffers reqs) 0 = bytes).
  { rewrite fold_add_transferred. subst bytes.
    destruct (buffers reqs); [done | by rewrite Z.add_0_l]. }
  unfold lock_buffers, lock_const_buffers. rewrite Hsum.
  repeat split; try done.
  all: cbn [do_lock try_lock snd trace]; by rewrite lock_calls_app.
Qed.

(** ** extent_guard: detaching and retargeting *)

(** [set_handle] changes the handle only: a guard retargeted to [h']
    unlocks its extent on [h'] when destroyed, and a guard set to null is
    disarmed but still reports its extent; [release] also zeroes the
    extent, so a released guard that is given a handle again is live and
    unlocks offset 0, length 0 when destroyed. *)
Lemma set_handle_retargets `{Platform W} (g : extent_guard)
    (h' : handle_id) (s : st W) :
  extent_guard.destructor (extent_guard.set_handle (Some h') g) s
  = do_unlock h' (_offset g) (_length g) s
  ∧ extent_guard.destructor (extent_guard.set_handle None g) s = s
  ∧ extent_guard.extent (extent_guard.set_handle None g)
    = extent_guard.extent g
  ∧ extent_guard.destructor (extent_guard.release g) s = s
  ∧ extent_guard.extent (extent_guard.release g) = (0, 0, false)
  ∧ extent_guard.valid
      (extent_guard.set_handle (Some h') (extent_guard.release g)) = true
  ∧ extent_guard.destructor
      (extent_guard.set_handle (Some h') (extent_guard.release g)) s
    = do_unlock h' 0 0 s.
Proof. by repeat split. Qed.

(** ** extent_guard: programs conserve locks *)

Lemma live_extents_lookup (σ : gmap nat extent_guard) (a : nat)
    (g : extent_guard) :
  σ !! a = Some g →
  live_extents σ ≡ₚ extent_of g ++ live_extents (delete a σ).
Proof.
  intros Ha. unfold live_extents.
  rewrite <- (map_to_list_delete σ a g Ha). by rewrite bind_cons.
Qed.

Lemma live_extents_insert (σ : gmap nat extent_guard) (a : nat)
    (g : extent_guard) :
  live_extents (<[a := g]> σ) ≡ₚ extent_of g ++ live_extents (delete a σ).
Proof.
  rewrite <- (insert_delete_eq σ a g). unfold live_extents.
  rewrite map_to_list_insert by apply lookup_delete_eq.
  by rewrite bind_cons.
Qed.

Section guard_programs.
Context `{Platform W}.
Implicit Types (g : extent_guard) (s : st W) (σ : gmap nat extent_guard).

Lemma unlock_calls_guard g s :
  unlock_calls (trace (extent_guard.unlock g s).2)
  = unlock_calls (trace s) ++ extent_of g.
Proof.
  unfold extent_guard.unlock, extent_of.
  destruct (_h g); cbn [snd do_unlock trace].
  - by rewrite unlock_calls_app.
  - by rewrite app_nil_r.
Qed.

Lemma unlock_guard_invalid g s :
  extent_of (extent_guard.unlock g s).1 = [].
Proof.
  unfold extent_guard.unlock, extent_of.
  by destruct (_h g) eqn:Hh; cbn [fst]; [|rewrite Hh].
Qed.

Lemma destructor_is_unlock g s :
  extent_guard.destructor g s = (extent_guard.unlock g s).2.
Proof.
  unfold extent_guard.destructor, extent_guard.unlock. by destruct (_h g).
Qed.

(** Move assignment between two objects, in closed form. *)
Lemma move_assign_distinct σ (this o : nat) (t g : extent_guard) s :
  this ≠ o →
  σ !! this = Some t →
  σ !! o = Some g →
  extent_guard.move_assign this o σ s
  = Some (<[o := extent_guard.default]> (<[this := g]> σ),
          (extent_guard.unlock t s).2).
Proof.
  intros Hne Hthis Ho.
  unfold extent_guard.move_assign, extent_guard.unlock_at,
    extent_guard.release_at.
  rewrite Hthis; cbn [mbind option_bind fst snd].
  repeat (rewrite ?lookup_insert_eq, ?(lookup_insert_ne _ this o), ?Ho
            by done; cbn [mbind option_bind fst snd]).
  cbn [extent_guard.set_handle _h _offset _length _exclusive].
  by rewrite !insert_insert_eq, guard_eta.
Qed.

(** Move assignment of an object to itself, in closed form. *)
Lemma move_assign_same σ (this : nat) (t : extent_guard) s :
  σ !! this = Some t →
  extent_guard.move_assign this this σ s
  = Some (<[this := extent_guard.default]> σ, (extent_guard.unlock t s).2).
Proof.
  intros Hthis.
  unfold extent_guard.move_assign, extent_guard.unlock_at,
    extent_guard.release_at.
  rewrite Hthis; cbn [mbind option_bind fst snd].
  repeat (rewrite ?lookup_insert_eq; cbn [mbind option_bind fst snd]).
  by rewrite !insert_insert_eq.
Qed.

(** One operation: the unlock calls made so far and the extents of the live
    guards, taken together, stay the same, up to the extent that a
    [release] gives up. *)
Lemma run_op_conserves (op : guard_op) σ s σ' s' :
  run_op op σ s = Some (σ', s') →
  ∃ leaked,
    unlock_calls (trace s') ++ live_extents σ' ++ leaked
    ≡ₚ unlock_calls (trace s) ++ live_extents σ
    ∧ (is_release op = false → leaked = []).
Proof.
  destruct op as [a|a|this o|this o|a]; cbn [run_op is_release].
  - unfold extent_guard.unlock_at.
    destruct (σ !! a) as [g|] eqn:Ha; cbn [mbind option_bind]; [|done].
    intros [= <- <-]. exists []. split; [|done].
    rewrite app_nil_r, unlock_calls_guard, live_extents_insert,
      unlock_guard_invalid, (live_extents_lookup σ a g Ha).
    by rewrite <- app_assoc.
  - unfold extent_guard.release_at.
    destruct (σ !! a) as [g|] eqn:Ha; cbn [mbind option_bind]; [|done].
    intros [= <- <-]. exists (extent_of g). split; [|done].
    rewrite live_extents_insert, (live_extents_lookup σ a g Ha).
    cbn [extent_of extent_guard.release _h app].
    f_equiv. apply Permutation_app_comm.
  - unfold extent_guard.move_construct, extent_guard.release_at.
    destruct (σ !! this) eqn:Hthis; [done|].
    destruct (σ !! o) as [g|] eqn:Ho; cbn [mbind option_bind]; [|done].
    assert (Hne : this ≠ o) by congruence.
    rewrite lookup_insert_ne, Ho by done; cbn [mbind option_bind].
    intros [= <- <-]. exists []. split; [|done].
    rewrite app_nil_r, guard_eta. f_equiv.
    rewrite live_extents_insert, delete_insert_ne by done.
    rewrite live_extents_insert, (delete_id _ this)
      by (by rewrite lookup_delete_ne).
    cbn [extent_of extent_guard.release _h app].
    by rewrite (live_extents_lookup σ o g Ho).
  - destruct (σ !! this) as [t|] eqn:Hthis.
    2: { unfold extent_guard.move_assign, extent_guard.unlock_at.
         by rewrite Hthis. }
    destruct (decide (this = o)) as [<-|Hne].
    + rewrite (move_assign_same σ this t s Hthis).
      intros [= <- <-]. exists []. split; [|done].
      rewrite app_nil_r, unlock_calls_guard, live_extents_insert,
        (live_extents_lookup σ this t Hthis).
      cbn [extent_of extent_guard.default _h app].
      by rewrite <- app_assoc.
    + destruct (σ !! o) as [g|] eqn:Ho.
      2: { unfold extent_guard.move_assign, extent_guard.unlock_at.
           rewrite Hthis; cbn [mbind option_bind fst snd].
           repeat (rewrite ?(lookup_insert_ne _ this o), ?Ho by done;
                   cbn [mbind option_bind fst snd]).
           done. }
      rewrite (move_assign_distinct σ this o t g s Hne Hthis Ho).
      intros [= <- <-]. exists []. split; [|done].
      rewrite app_nil_r, unlock_calls_guard, <- app_assoc. f_equiv.
      rewrite live_extents_insert, delete_insert_ne by done.
      rewrite live_extents_insert.
      cbn [extent_of extent_guard.default _h app].
      rewrite (live_extents_lookup σ this t Hthis).
      rewrite (live_extents_lookup (delete this σ) o g)
        by (by rewrite lookup_delete_ne).
      by rewrite (delete_delete σ).
  - unfold extent_guard.destructor_at.
    destruct (σ !! a) as [g|] eqn:Ha; cbn [mbind option_bind]; [|done].
    intros [= <- <-]. exists []. split; [|done].
    rewrite app_nil_r, destructor_is_unlock, unlock_calls_guard,
      (live_extents_lookup σ a g Ha).
    by rewrite <- app_assoc.
Qed.

Lemma run_op_extends (op : guard_op) σ s σ' s' :
  run_op op σ s = Some (σ', s') →
  ∃ new, unlock_calls (trace s') = unlock_calls (trace s) ++ new.
Proof.
  destruct op as [a|a|this o|this o|a]; cbn [run_op].
  - unfold extent_guard.unlock_at.
    destruct (σ !! a) as [g|]; cbn [mbind option_bind]; [|done].
    intros [= <- <-]. eexists. apply unlock_calls_guard.
  - destruct (extent_guard.release_at a σ); cbn [mbind option_bind]; [|done].
    intros [= <- <-]. exists []. by rewrite app_nil_r.
  - destruct (extent_guard.move_construct this o σ);
      cbn [mbind option_bind]; [|done].
    intros [= <- <-]. exists []. by rewrite app_nil_r.
  - unfold extent_guard.move_assign, extent_guard.unlock_at.
    destruct (σ !! this) as [t|]; cbn [mbind option_bind fst snd]; [|done].
    intros Hrun. exists (extent_of t).
    rewrite <- unlock_calls_guard.
    repeat match type of Hrun with
           | context [?x ≫= _] =>
               destruct x; cbn [mbind option_bind] in Hrun; [|done]
           end.
    by injection Hrun as <- <-.
  - unfold extent_guard.destructor_at.
    destruct (σ !! a) as [g|]; cbn [mbind option_bind]; [|done].
    intros [= <- <-]. eexists.
    rewrite destructor_is_unlock. apply unlock_calls_guard.
Qed.

(** A program: the unlock calls it adds and the extents of the guards still
    live make up the extents of the guards that were live at the start,
    apart from those a [release] gave up. *)
Lemma run_ops_conserves (ops : list guard_op) σ s σ' s' :
  run_ops ops σ s = Some (σ', s') →
  ∃ new leaked,
    unlock_calls (trace s') = unlock_calls (trace s) ++ new
    ∧ new ++ live_extents σ' ++ leaked ≡ₚ live_extents σ
    ∧ (forallb (λ op, negb (is_release op)) ops = true → leaked = []).
Proof.
  revert σ s. induction ops as [|op ops IH]; intros σ s; cbn [run_ops].
  { intros [= <- <-]. exists [], []. by rewrite !app_nil_r. }
  destruct (run_op op σ s) as [[σ1 s1]|] eqn:Hop; cbn [mbind option_bind];
    [|done].
  cbn [fst snd]. intros Hrun.
  destruct (IH σ1 s1 Hrun) as (new2 & leaked2 & Ht2 & Hp2 & Hl2).
  destruct (run_op_extends op σ s σ1 s1 Hop) as [new1 Ht1].
  destruct (run_op_conserves op σ s σ1 s1 Hop) as (leaked1 & Hp1 & Hl1).
  rewrite Ht1, <- app_assoc in Hp1. apply Permutation_app_inv_l in Hp1.
  exists (new1 ++ new2), (leaked2 ++ leaked1). split; [|split].
  - by rewrite Ht2, Ht1, <- app_assoc.
  - rewrite <- Hp1, <- Hp2. by rewrite <- !app_assoc.
  - cbn [forallb]. intros [Hop' Hops']%andb_true_iff.
    rewrite Hl2 by done. rewrite Hl1; [done|].
    by apply negb_true_iff.
Qed.

(** X10: in a program of guard operations every unlock call is for the
    extent of a guard that was live at the start, and for each extent the
    unlock calls made and the guards still live for it are, together, no
    more than the guards that stood for it at the start: a guard unlocks
    its extent at most once, and a guard that has unlocked is live no
    longer. *)
Theorem guard_programs_unlock_once (ops : list guard_op) σ s σ' s' :
  run_ops ops σ s = Some (σ', s') →
  ∃ new,
    unlock_calls (trace s') = unlock_calls (trace s) ++ new
    ∧ new ++ live_extents σ' ⊆+ live_extents σ.
Proof.
  intros Hrun.
  destruct (run_ops_conserves ops σ s σ' s' Hrun)
    as (new & leaked & Ht & Hp & _).
  exists new. split; [done|].
  rewrite <- Hp, app_assoc. by apply submseteq_inserts_r.
Qed.

(** X11: a program that never calls [release] loses no lock: the unlock
    calls it makes and the extents of the guards still live are, together,
    the extents of the guards that were live at the start; when it has
    destroyed every guard, each of those extents has been unlocked once. *)
Theorem guard_programs_no_leak (ops : list guard_op) σ s σ' s' :
  forallb (λ op, negb (is_release op)) ops = true →
  run_ops ops σ s = Some (σ', s') →
  ∃ new,
    unlock_calls (trace s') = unlock_calls (trace s) ++ new
    ∧ new ++ live_extents σ' ≡ₚ live_extents σ
    ∧ (σ' = ∅ → new ≡ₚ live_extents σ).
Proof.
  intros Hrel Hrun.
  destruct (run_ops_conserves ops σ s σ' s' Hrun)
    as (new & leaked & Ht & Hp & Hl).
  rewrite (Hl Hrel), app_nil_r in Hp.
  exists new. split; [done|]. split; [done|].
  intros ->. unfold live_extents in Hp.
  by rewrite map_to_list_empty, app_nil_r in Hp.
Qed.

End guard_programs.

(** ** lock_files: the whole call *)


Lemma opened_app (t1 t2 : list event) :
  opened (t1 ++ t2) = opened t1 ++ opened t2.
Proof. apply omap_app. Qed.

Lemma closed_app (t1 t2 : list event) :
  closed (t1 ++ t2) = closed t1 ++ closed t2.
Proof. apply omap_app. Qed.

Lemma pass_events_app d (t1 t2 : list event) :
  pass_events d t1 → pass_events d t2 → pass_events d (t1 ++ t2).
Proof.
  unfold pass_events. rewrite forallb_app. by intros -> ->.
Qed.

Lemma pass_events_quiet d (t : list event) :
  pass_events d t →
  backoffs t = [] ∧ opened t = [] ∧ closed t = []
  ∧ forallb (clock_allowed d) t = true.
Proof.
  unfold pass_events. induction t as [|ev t IH]; [done|].
  cbn [forallb]. intros [[Hp Hc]%andb_true_iff Ht]%andb_true_iff.
  destruct (IH Ht) as (Hb & Ho & Hcl & Hca).
  repeat split.
  - destruct ev; try done; exact Hb.
  - destruct ev; try done; exact Ho.
  - destruct ev; try done; exact Hcl.
  - by rewrite Hc, Hca.
Qed.

Lemma unlocks_quiet (lh : handle_id) (l : list entity_type) d :
  backoffs (map (unlock_event lh) l) = []
  ∧ opened (map (unlock_event lh) l) = []
  ∧ closed (map (unlock_event lh) l) = []
  ∧ forallb (clock_allowed d) (map (unlock_event lh) l) = true.
Proof. induction l as [|e l IH]; [done|]. exact IH. Qed.

Section lock_files_calls.
Context `{Platform W}.
Implicit Types (s : st W) (out rest : list entity_type) (d : deadline).

Lemma start_clocks_trace d s :
  ∃ pro, trace (lock_files.start_clocks d s).2 = trace s ++ pro
    ∧ pass_events d pro ∧ lock_calls pro = []
    ∧ ∀ held, held_after pro held = held.
Proof.
  destruct d as [|nsecs|utc]; cbn [lock_files.start_clocks snd].
  - exists []. by rewrite app_nil_r.
  - by eexists [_].
  - exists []. by rewrite app_nil_r.
Qed.

Lemma timed_out_events d began_steady end_utc s :
  ∃ evs, trace (lock_files.timed_out d began_steady end_utc s).2
         = trace s ++ evs
    ∧ pass_events d evs.
Proof.
  destruct d as [|nsecs|utc]; cbn [lock_files.timed_out snd].
  - exists []. by rewrite app_nil_r.
  - by eexists [_].
  - by eexists [_].
Qed.

(** The [for] loop reads only the clock of its deadline and otherwise only
    locks and unlocks. *)
Lemma for_entities_events (lh : handle_id) d began_steady end_utc rest n s :
  ∃ evs,
    trace (lock_files.for_entities lh d began_steady end_utc rest n s).2
    = trace s ++ evs
    ∧ pass_events d evs.
Proof.
  revert n s. induction rest as [|a rest IH]; intros n s.
  { exists []. by rewrite app_nil_r. }
  cbn [lock_files.for_entities].
  destruct (timed_out_events d began_steady end_utc s) as (cevs & Hc & Hcp).
  destruct (lock_files.timed_out d began_steady end_utc s) as [b c];
    cbn [fst snd] in *.
  destruct b; cbn [fst snd]; [by exists cevs|].
  pose proof (do_lock_trace lh (entity_value a) 1 (entity_exclusive a)
                zero_deadline c) as Hlk.
  destruct (do_lock lh (entity_value a) 1 (entity_exclusive a)
              zero_deadline c) as [reply s2]; cbn [fst snd] in *.
  destruct reply as [guard|ec].
  2: { eexists (cevs ++ [_]). cbn [snd].
       rewrite Hlk, Hc, <- app_assoc. split; [reflexivity|].
       by apply pass_events_app. }
  destruct (_h guard) as [gh|] eqn:Hgh.
  2: { unfold extent_guard.valid, extent_guard.destructor. rewrite Hgh.
       eexists (cevs ++ [_]). cbn [snd].
       rewrite Hlk, Hc, <- app_assoc. split; [reflexivity|].
       by apply pass_events_app. }
  assert (Hv : extent_guard.valid guard = true)
    by (unfold extent_guard.valid; by rewrite Hgh).
  rewrite Hv, (destructor_live guard _ gh Hgh).
  destruct (IH (n + 1) (do_unlock gh (_offset guard) (_length guard) s2))
    as (evs & Ht & Hp).
  eexists (cevs ++ [_; _] ++ evs).
  rewrite Ht. cbn [trace do_unlock]. rewrite Hlk, Hc.
  split; [by rewrite <- !app_assoc|].
  apply pass_events_app; [done|]. by apply pass_events_app.
Qed.

Lemma do_file_trace s :
  trace (do_file s).2 = trace s ++ [ev_file (do_file s).1].
Proof. reflexivity. Qed.

Lemma do_close_trace (h : handle_id) s :
  trace (do_close h s) = trace s ++ [ev_close h].
Proof. reflexivity. Qed.

Lemma backoff_trace out s :
  trace (do_yield (do_random_shuffle out s).2)
  = trace s ++ [ev_random_shuffle out (do_random_shuffle out s).1; ev_yield].
Proof.
  cbn [do_yield do_random_shuffle trace fst snd]. by rewrite <- app_assoc.
Qed.

Lemma do_random_shuffle_fst out s :
  (do_random_shuffle out s).1 = (random_shuffle out (world s)).1.
Proof. reflexivity. Qed.

(** The inner block when the lock file cannot be opened in the first pass:
    the [Undoer] reads [n], which has not been assigned. *)
Lemma block_open_error (lh : handle_id) out d began_steady end_utc s ec :
  (do_file s).1 = errored ec →
  lock_files.block lh out d began_steady end_utc None s = None.
Proof. intros Hf. unfold lock_files.block. by rewrite Hf. Qed.

(** The inner block when the pass completes. *)
Lemma block_done (lh : handle_id) out d began_steady end_utc
    (n0 : option Z) s (ret : handle_id) :
  (do_file s).1 = value ret →
  (lock_files.for_entities lh d began_steady end_utc out 0 (do_file s).2).1.1
  = lock_files.for_done →
  lock_files.block lh out d began_steady end_utc n0 s
  = Some (lock_files.block_continue,
          (lock_files.for_entities lh d began_steady end_utc out 0
             (do_file s).2).1.2,
          do_close ret
            (lock_files.for_entities lh d began_steady end_utc out 0
               (do_file s).2).2).
Proof. intros Hf Hd. unfold lock_files.block. by rewrite Hf, Hd. Qed.

(** Every finished call, taken apart: the prologue, the opening of the
    lock file, the events of the one pass, the closing of the lock file, and
    then nothing (the pass completed), the rollback (an error is returned),
    or the rollback, the shuffle and the yield (a lock was refused). *)
Lemma _lock_finished (lh : handle_id) out d s (fuel : nat) res out' s' :
  Z.of_nat (length out) < size_modulus →
  (∀ l w, length (random_shuffle l w).1 = length l) →
  lock_files._lock (S fuel) lh out d s = finished (res, out', s') →
  ∃ pro ret evs tail,
    trace s'
    = trace s ++ pro ++ ev_file (value ret) :: evs ++ ev_close ret :: tail
    ∧ pass_events d pro ∧ pass_events d evs
    ∧ held_after pro [] = [] ∧ held_after evs [] = []
    ∧ ((res = value () ∧ out' = out ∧ tail = [])
       ∨ (∃ ec l, res = errored ec ∧ out' = out
                  ∧ tail = map (unlock_event lh) l)
       ∨ (∃ l w, res = value () ∧ out' = (random_shuffle out w).1
                 ∧ tail = map (unlock_event lh) l
                          ++ [ev_random_shuffle out out'; ev_yield])).
Proof.
  intros Hsize Hshuffle. unfold lock_files._lock.
  destruct (start_clocks_trace d s) as (pro & Hpro & Hpp & _ & Hph).
  destruct (lock_files.start_clocks d s) as [[b e] c]; cbn [fst snd] in *.
  rewrite (do_while_single_pass lh out d b e None c fuel Hsize Hshuffle).
  destruct (do_file c).1 as [ret|ec] eqn:Hf.
  2: { by rewrite (block_open_error lh out d b e c ec Hf). }
  destruct (for_entities_run lh d b e out 0 (do_file c).2)
    as (k & k' & evs & Ht & _ & _ & _ & _ & _ & _ & Hh & _ & _).
  destruct (for_entities_events lh d b e out 0 (do_file c).2)
    as (evs2 & Ht2 & Hp).
  rewrite Ht in Ht2. apply app_inv_head in Ht2. subst evs2.
  rewrite do_file_trace, Hf, Hpro, <- !app_assoc in Ht. cbn [app] in Ht.
  pose proof (block_done lh out d b e None c ret Hf) as Hbd.
  pose proof (block_after_stop lh out d b e None c ret Hsize Hf) as Hbs.
  cbv zeta in Hbs. revert Ht Hbd Hbs.
  destruct (lock_files.for_entities lh d b e out 0 (do_file c).2)
    as [[x nn] sr].
  cbn [fst snd]. intros Ht Hbd Hbs.
  destruct x as [| |ec].
  - rewrite (Hbd eq_refl). intros Heq.
    assert (Hres : res = value ()) by congruence.
    assert (Hout : out' = out) by congruence.
    assert (Hs' : s' = do_close ret sr) by congruence.
    subst res out' s'. exists pro, ret, evs, [].
    rewrite do_close_trace, Ht, <- !app_assoc. cbn [app].
    repeat split; try done. by left.
  - destruct Hbs as (k1 & ent & _ & _ & _ & _ & _ & _ & Hb); [done|].
    rewrite Hb. intros Heq.
    assert (Hres : res = value ()) by congruence.
    assert (Hout : out' = (do_random_shuffle out
                             (lock_files.unlock lh
                                (ent :: rev (take k1 out))
                                (do_close ret sr))).1) by congruence.
    assert (Hs' : s' = do_yield
                         (do_random_shuffle out
                            (lock_files.unlock lh
                               (ent :: rev (take k1 out))
                               (do_close ret sr))).2) by congruence.
    subst res s'. exists pro, ret, evs. eexists.
    rewrite backoff_trace, unlock_trace, do_close_trace, Ht, <- !app_assoc.
    cbn [app]. rewrite <- Hout.
    split; [reflexivity|]. repeat split; try done.
    right; right. exists (ent :: rev (take k1 out)). eexists.
    split; [done|]. split; [|done].
    rewrite Hout. apply do_random_shuffle_fst.
  - destruct Hbs as (k1 & ent & _ & _ & _ & _ & _ & _ & Hb); [done|].
    rewrite Hb. intros Heq.
    assert (Hres : res = errored ec) by congruence.
    assert (Hout : out' = out) by congruence.
    assert (Hs' : s' = lock_files.unlock lh (ent :: rev (take k1 out))
                         (do_close ret sr)) by congruence.
    subst res out' s'. exists pro, ret, evs. eexists.
    rewrite unlock_trace, do_close_trace, Ht, <- !app_assoc. cbn [app].
    split; [reflexivity|]. repeat split; try done.
    right; left. by do 2 eexists.
Qed.

Lemma held_after_tail (lh : handle_id) (l : list entity_type)
    (t : list event) :
  (t = [] ∨ ∃ a b, t = [ev_random_shuffle a b; ev_yield]) →
  held_after (map (unlock_event lh) l ++ t) [] = [].
Proof.
  intros Ht. rewrite held_after_app, held_after_unlocks.
  by destruct Ht as [->|(a & b & ->)].
Qed.

(** X12: the body of the [do] loop runs once: with any amount of fuel the
    call gives what it gives with fuel for one pass, and it never runs out
    of fuel. *)
Theorem _lock_runs_one_pass (lh : handle_id) out d s (fuel : nat) :
  Z.of_nat (length out) < size_modulus →
  (∀ l w, length (random_shuffle l w).1 = length l) →
  lock_files._lock (S fuel) lh out d s = lock_files._lock 1 lh out d s
  ∧ lock_files._lock (S fuel) lh out d s ≠ out_of_fuel.
Proof.
  intros Hsize Hshuffle. unfold lock_files._lock.
  rewrite !(do_while_single_pass lh out d _ _ None _ _ Hsize Hshuffle).
  split; [done|].
  destruct (lock_files.block lh out d _ _ None _) as [[[[| |ec] n'] s1]|];
    done.
Qed.

(** X13: when [_lock] returns, with success or with an error, no lock that
    was granted during the call is still held. *)
Theorem _lock_holds_nothing (lh : handle_id) out d s (fuel : nat) res out'
    s' :
  Z.of_nat (length out) < size_modulus →
  (∀ l w, length (random_shuffle l w).1 = length l) →
  lock_files._lock (S fuel) lh out d s = finished (res, out', s') →
  held_after (drop (length (trace s)) (trace s')) [] = [].
Proof.
  intros Hsize Hshuffle Hrun.
  destruct (_lock_finished lh out d s fuel res out' s' Hsize Hshuffle Hrun)
    as (pro & ret & evs & tail & Ht & _ & _ & Hph & Hh & Htail).
  rewrite Ht, drop_app_length.
  change (ev_file (value ret) :: evs ++ ev_close ret :: tail)
    with ([ev_file (value ret)] ++ evs ++ [ev_close ret] ++ tail).
  rewrite !held_after_app, Hph.
  change (held_after [ev_file (value ret)] []) with (@nil (handle_id * Z * Z)).
  rewrite Hh.
  change (held_after [ev_close ret] []) with (@nil (handle_id * Z * Z)).
  destruct Htail as [(_ & _ & ->)|[(ec & l & _ & _ & ->)|(l & w & _ & _ & ->)]].
  - done.
  - apply held_after_unlocks.
  - apply held_after_tail. right. by do 2 eexists.
Qed.

(** X14: the entities are, after the call, a permutation of what they
    were, and in their original order when an error is returned. *)
Theorem _lock_entities_permuted (lh : handle_id) out d s (fuel : nat) res
    out' s' :
  Z.of_nat (length out) < size_modulus →
  (∀ l w, (random_shuffle l w).1 ≡ₚ l) →
  lock_files._lock (S fuel) lh out d s = finished (res, out', s') →
  out' ≡ₚ out ∧ (∀ ec, res = errored ec → out' = out).
Proof.
  intros Hsize Hperm Hrun.
  assert (Hshuffle : ∀ l w, length (random_shuffle l w).1 = length l)
    by (intros l w; by rewrite (Hperm l w)).
  destruct (_lock_finished lh out d s fuel res out' s' Hsize Hshuffle Hrun)
    as (pro & ret & evs & tail & _ & _ & _ & _ & _ & Htail).
  destruct Htail as [(_ & -> & _)|[(ec & l & _ & -> & _)|(l & w & -> & -> & _)]].
  - done.
  - done.
  - split; [apply Hperm | done].
Qed.

(** X15: [_lock] reads no clock under an infinite deadline, only the steady
    clock under a duration, and only the system clock under a time point. *)
Theorem _lock_reads_its_clock (lh : handle_id) out d s (fuel : nat) res out'
    s' :
  Z.of_nat (length out) < size_modulus →
  (∀ l w, length (random_shuffle l w).1 = length l) →
  lock_files._lock (S fuel) lh out d s = finished (res, out', s') →
  forallb (clock_allowed d) (drop (length (trace s)) (trace s')) = true.
Proof.
  intros Hsize Hshuffle Hrun.
  destruct (_lock_finished lh out d s fuel res out' s' Hsize Hshuffle Hrun)
    as (pro & ret & evs & tail & Ht & Hpp & Hp & _ & _ & Htail).
  rewrite Ht, drop_app_length.
  change (ev_file (value ret) :: evs ++ ev_close ret :: tail)
    with ([ev_file (value ret)] ++ evs ++ [ev_close ret] ++ tail).
  rewrite !forallb_app.
  destruct (pass_events_quiet d pro Hpp) as (_ & _ & _ & ->).
  destruct (pass_events_quiet d evs Hp) as (_ & _ & _ & ->).
  cbn [forallb clock_allowed andb].
  destruct Htail as [(_ & _ & ->)|[(ec & l & _ & _ & ->)|(l & w & _ & _ & ->)]].
  - done.
  - by destruct (unlocks_quiet lh l d) as (_ & _ & _ & ->).
  - rewrite forallb_app.
    by destruct (unlocks_quiet lh l d) as (_ & _ & _ & ->).
Qed.


(** X17: every finished call has opened one lock file and has closed that
    same handle, once, before it returns, whatever the outcome. *)
Theorem _lock_closes_lock_file (lh : handle_id) out d s (fuel : nat) res out'
    s' :
  Z.of_nat (length out) < size_modulus →
  (∀ l w, length (random_shuffle l w).1 = length l) →
  lock_files._lock (S fuel) lh out d s = finished (res, out', s') →
  ∃ ret, opened (drop (length (trace s)) (trace s')) = [ret]
         ∧ closed (drop (length (trace s)) (trace s')) = [ret].
Proof.
  intros Hsize Hshuffle Hrun.
  destruct (_lock_finished lh out d s fuel res out' s' Hsize Hshuffle Hrun)
    as (pro & ret & evs & tail & Ht & Hpp & Hp & _ & _ & Htail).
  rewrite Ht, drop_app_length. exists ret.
  change (ev_file (value ret) :: evs ++ ev_close ret :: tail)
    with ([ev_file (value ret)] ++ evs ++ [ev_close ret] ++ tail).
  rewrite !opened_app, !closed_app.
  destruct (pass_events_quiet d pro Hpp) as (_ & -> & -> & _).
  destruct (pass_events_quiet d evs Hp) as (_ & -> & -> & _).
  assert (Htl : opened tail = [] ∧ closed tail = []).
  { destruct Htail
      as [(_ & _ & ->)|[(ec & l & _ & _ & ->)|(l & w & _ & _ & ->)]].
    - done.
    - by destruct (unlocks_quiet lh l d) as (_ & -> & -> & _).
    - rewrite opened_app, closed_app.
      by destruct (unlocks_quiet lh l d) as (_ & -> & -> & _). }
  destruct Htl as [-> ->]. done.
Qed.

(** X18: with no entities [_lock] returns success once the lock file has
    been opened and closed: it requests no lock, makes no unlock call and
    never tests the deadline, so this holds for a deadline of zero too. *)
Theorem _lock_no_entities (lh : handle_id) d s (ret : handle_id)
    (fuel : nat) :
  (do_file (lock_files.start_clocks d s).2).1 = value ret →
  lock_files._lock (S fuel) lh [] d s
  = finished (value (), [],
              do_close ret (do_file (lock_files.start_clocks d s).2).2)
  ∧ lock_calls
      (trace (do_close ret (do_file (lock_files.start_clocks d s).2).2))
    = lock_calls (trace s)
  ∧ unlock_calls
      (trace (do_close ret (do_file (lock_files.start_clocks d s).2).2))
    = unlock_calls (trace s).
Proof.
  intros Hf. split.
  - unfold lock_files._lock. cbn [lock_files.do_while].
    unfold lock_files.block. rewrite Hf.
    cbn [lock_files.for_entities fst snd length Z.of_nat].
    reflexivity.
  - rewrite do_close_trace, do_file_trace, !lock_calls_app, !unlock_calls_app.
    cbn [lock_calls unlock_calls omap list_omap]. rewrite !app_nil_r.
    destruct d as [|nsecs|utc]; cbn [lock_files.start_clocks snd]; try done.
    cbn [do_steady_now snd trace].
    by rewrite lock_calls_app, unlock_calls_app, !app_nil_r.
Qed.

(** X19: when the lock file cannot be opened, the [Undoer] runs before any
    value was assigned to [n] and reads it: the call has no defined
    result, and in particular does not return the error of the open. *)
Theorem _lock_open_failure (lh : handle_id) out d s (ec : errc)
    (fuel : nat) :
  (do_file (lock_files.start_clocks d s).2).1 = errored ec →
  lock_files._lock (S fuel) lh out d s = undefined_behaviour
  ∧ ∀ r, lock_files._lock (S fuel) lh out d s ≠ finished r.
Proof.
  intros Hf.
  assert (Hu : lock_files._lock (S fuel) lh out d s = undefined_behaviour).
  { unfold lock_files._lock. cbn [lock_files.do_while].
    by rewrite (block_open_error lh out d _ _ _ ec Hf). }
  split; [done|]. intros r. by rewrite Hu.
Qed.

(** X20: [unlock] makes one unlock call per entity, in the order given,
    each for one byte at the id of the entity, whatever the exclusive
    flags; it requests no lock; and it releases every lock of a set of
    granted one-byte locks on the same entities. *)
Theorem unlock_releases_entities (lh : handle_id) (l : list entity_type) s :
  unlock_calls (trace (lock_files.unlock lh l s))
  = unlock_calls (trace s) ++ map (λ e, (lh, entity_value e, 1)) l
  ∧ lock_calls (trace (lock_files.unlock lh l s)) = lock_calls (trace s)
  ∧ held_after (drop (length (trace s)) (trace (lock_files.unlock lh l s)))
      (map (λ e, (lh, entity_value e, 1)) l) = [].
Proof.
  rewrite unlock_trace, unlock_calls_app, lock_calls_app, drop_app_length,
    lock_calls_unlocks, app_nil_r.
  split; [|split; [done|]].
  - f_equal. induction l as [|e l IH]; [done|]. cbn [map unlock_calls omap].
    cbn. f_equal. exact IH.
  - induction l as [|e l IH]; [done|].
    cbn [map held_after fold_left held_step unlock_event remove_first].
    rewrite decide_True by done. exact IH.
Qed.

End lock_files_calls.

(** ** The further theorems at concrete inputs *)

Lemma fs_shuffle_length (l : list entity_type) (w : fs_world) :
  length (random_shuffle l w).1 = length l.
Proof. by rewrite (fs_shuffle_permutes l w). Qed.

(** The detaching program makes one unlock call, for the guard at 2. *)
Lemma guard_programs_unlock_once_witness :
  ∃ σ' s' new,
    run_ops detaching_program two_guards (start contended_world)
    = Some (σ', s')
    ∧ unlock_calls (trace s') = [] ++ new
    ∧ new ++ live_extents σ' ⊆+ live_extents two_guards.
Proof.
  edestruct (guard_programs_unlock_once detaching_program two_guards
               (start contended_world)) as (new & Ht & Hsub).
  - vm_compute. reflexivity.
  - do 3 eexists. split; [reflexivity|]. split; [exact Ht | exact Hsub].
Defined.

(** The scoped program unlocks both extents and leaves no guard. *)
Lemma guard_programs_no_leak_witness :
  ∃ s' new,
    run_ops scoped_program two_guards (start contended_world) = Some (∅, s')
    ∧ unlock_calls (trace s') = [] ++ new
    ∧ new ≡ₚ live_extents two_guards.
Proof.
  edestruct (guard_programs_no_leak scoped_program two_guards
               (start contended_world)) as (new & Ht & _ & Hall).
  - reflexivity.
  - vm_compute. reflexivity.
  - do 2 eexists. split; [reflexivity|]. split; [exact Ht|].
    apply Hall. reflexivity.
Defined.

Lemma _lock_runs_one_pass_witness :
  lock_files._lock 3 0%nat [entity_B; entity_A] infinite
    (start contended_world)
  = lock_files._lock 1 0%nat [entity_B; entity_A] infinite
      (start contended_world).
Proof.
  apply (_lock_runs_one_pass 0%nat [entity_B; entity_A] infinite
           (start contended_world) 2).
  - vm_compute. reflexivity.
  - apply fs_shuffle_length.
Defined.

Lemma _lock_holds_nothing_witness :
  held_after (drop (length (trace (start contended_world)))
                (trace contended_final)) [] = [].
Proof.
  apply (_lock_holds_nothing 0%nat [entity_B; entity_A] infinite
           (start contended_world) 0 (value ()) [entity_A; entity_B]
           contended_final).
  - vm_compute. reflexivity.
  - apply fs_shuffle_length.
  - vm_compute. reflexivity.
Defined.

Lemma _lock_entities_permuted_witness :
  [entity_A; entity_B] ≡ₚ [entity_B; entity_A].
Proof.
  apply (_lock_entities_permuted 0%nat [entity_B; entity_A] infinite
           (start contended_world) 0 (value ()) [entity_A; entity_B]
           contended_final).
  - vm_compute. reflexivity.
  - apply fs_shuffle_permutes.
  - vm_compute. reflexivity.
Defined.

Lemma _lock_reads_its_clock_witness :
  forallb (clock_allowed infinite)
    (drop (length (trace (start contended_world))) (trace contended_final))
  = true.
Proof.
  apply (_lock_reads_its_clock 0%nat [entity_B; entity_A] infinite
           (start contended_world) 0 (value ()) [entity_A; entity_B]
           contended_final).
  - vm_compute. reflexivity.
  - apply fs_shuffle_length.
  - vm_compute. reflexivity.
Defined.


Lemma _lock_closes_lock_file_witness :
  ∃ ret,
    opened (drop (length (trace (start contended_world)))
              (trace contended_final)) = [ret]
    ∧ closed (drop (length (trace (start contended_world)))
                (trace contended_final)) = [ret].
Proof.
  apply (_lock_closes_lock_file 0%nat [entity_B; entity_A] infinite
           (start contended_world) 0 (value ()) [entity_A; entity_B]
           contended_final).
  - vm_compute. reflexivity.
  - apply fs_shuffle_length.
  - vm_compute. reflexivity.
Defined.

(** No entities and a deadline of zero on the contended directory. *)
Lemma _lock_no_entities_witness :
  lock_files._lock 1 0%nat [] zero_deadline (start contended_world)
  = finished (value (), [],
              do_close 100%nat
                (do_file (lock_files.start_clocks zero_deadline
                            (start contended_world)).2).2).
Proof.
  apply (_lock_no_entities 0%nat zero_deadline (start contended_world)
           100%nat 0).
  reflexivity.
Defined.

(** A lock directory that does not exist. *)
Lemma _lock_open_failure_witness :
  @lock_files._lock unit missing_directory 1 0%nat [entity_A] infinite
    (start tt)
  = undefined_behaviour.
Proof.
  apply (@_lock_open_failure unit missing_directory 0%nat [entity_A]
           infinite (start tt) (EOTHER 2) 0).
  reflexivity.
Defined.

(** ** lock_files: which locks a call requests, and why it stops *)

Lemma lock_replies_app (t1 t2 : list event) :
  lock_replies (t1 ++ t2) = lock_replies t1 ++ lock_replies t2.
Proof. apply omap_app. Qed.

Lemma clock_readings_app (t1 t2 : list event) :
  clock_readings (t1 ++ t2) = clock_readings t1 ++ clock_readings t2.
Proof. apply omap_app. Qed.

Lemma unlocks_silent (lh : handle_id) (l : list entity_type) :
  lock_replies (map (unlock_event lh) l) = []
  ∧ clock_readings (map (unlock_event lh) l) = []
  ∧ granted (map (unlock_event lh) l) = [].
Proof. induction l as [|e l IH]; [done|]. exact IH. Qed.

Section lock_files_requests.
Context `{Platform W}.
Implicit Types (s : st W) (out rest : list entity_type) (d : deadline).

(** The prologue takes one reading of the steady clock for a duration and
    none otherwise. *)
Lemma start_clocks_exact d s :
  ∃ pro, trace (lock_files.start_clocks d s).2 = trace s ++ pro
    ∧ lock_calls pro = [] ∧ lock_replies pro = []
    ∧ match d with
      | infinite => clock_readings pro = []
      | relative _ =>
          clock_readings pro = [(lock_files.start_clocks d s).1.1]
      | absolute utc =>
          clock_readings pro = [] ∧ (lock_files.start_clocks d s).1.2 = utc
      end.
Proof.
  destruct d as [|nsecs|utc]; cbn [lock_files.start_clocks fst snd].
  - exists []. by rewrite app_nil_r.
  - by eexists [_].
  - exists []. by rewrite app_nil_r.
Qed.

(** The test of the deadline answers yes only on a reading at which the
    deadline has passed. *)
Lemma timed_out_exact d began_steady end_utc s :
  ∃ cevs, trace (lock_files.timed_out d began_steady end_utc s).2
          = trace s ++ cevs
    ∧ lock_calls cevs = [] ∧ granted cevs = [] ∧ lock_replies cevs = []
    ∧ ((lock_files.timed_out d began_steady end_utc s).1 = true →
       ∃ t, last (clock_readings cevs) = Some t
            ∧ deadline_passed d began_steady end_utc t = true).
Proof.
  destruct d as [|nsecs|utc]; cbn [lock_files.timed_out fst snd].
  - exists []. by rewrite app_nil_r.
  - eexists [_]. repeat split; try done. intros Ht. by eexists.
  - eexists [_]. repeat split; try done. intros Ht. by eexists.
Qed.

(** One run of the [for] loop, with the reason it stops: the requests are
    those of the first [k'] entities, the granted ones those of the first
    [k]. The loop runs to its end only when every request was granted; it
    leaves through [goto failed] only on a reply that is an invalid guard,
    and returns an error only when that is the reply of the last request or
    when the clock was read at or after the deadline. *)
Lemma for_entities_exact (lh : handle_id) d began_steady end_utc rest n s :
  let r := lock_files.for_entities lh d began_steady end_utc rest n s in
  ∃ (k k' : nat) evs,
    trace r.2 = trace s ++ evs
    ∧ (k' ≤ length rest)%nat
    ∧ lock_calls evs = map (lock_request lh) (take k' rest)
    ∧ granted evs = map (lock_request lh) (take k rest)
    ∧ match r.1.1 with
      | lock_files.for_done => k = length rest ∧ k' = k
      | lock_files.for_goto_failed =>
          k' = S k
          ∧ ∃ g, last (lock_replies evs) = Some (value g)
                 ∧ extent_guard.valid g = false
      | lock_files.for_return ec =>
          (k' = S k ∧ last (lock_replies evs) = Some (errored ec))
          ∨ (k' = k ∧ ec = ETIMEDOUT
             ∧ ∃ t, last (clock_readings evs) = Some t
                    ∧ deadline_passed d began_steady end_utc t = true)
      end.
Proof.
  revert n s. induction rest as [|a rest IH]; intros n s r; subst r.
  { exists O, O, []. cbn [lock_files.for_entities fst snd length take map].
    rewrite app_nil_r. repeat split; done. }
  cbn [lock_files.for_entities].
  destruct (timed_out_exact d began_steady end_utc s)
    as (cevs & Hc & Hcl & Hcg & Hcr & Hct).
  destruct (lock_files.timed_out d began_steady end_utc s) as [b c];
    cbn [fst snd] in *.
  destruct b; cbn [fst snd].
  { exists O, O, cevs. cbn [length take map].
    split; [done|]. split; [lia|]. split; [done|]. split; [done|].
    right. split; [done|]. split; [done|]. by apply Hct. }
  clear Hct.
  pose proof (do_lock_trace lh (entity_value a) 1 (entity_exclusive a)
                zero_deadline c) as Hlk.
  destruct (do_lock lh (entity_value a) 1 (entity_exclusive a)
              zero_deadline c) as [reply s2]; cbn [fst snd] in *.
  destruct reply as [guard|ec].
  2: { exists O, 1%nat, (cevs ++ [ev_lock lh (entity_value a) 1
                                   (entity_exclusive a) zero_deadline
                                   (errored ec)]).
       cbn [fst snd].
       rewrite Hlk, Hc, <- app_assoc, lock_calls_app, granted_app,
         lock_replies_app, Hcl, Hcg, Hcr.
       cbn [length take map]. split; [done|]. split; [lia|].
       split; [done|]. split; [done|]. by left. }
  destruct (_h guard) as [gh|] eqn:Hgh.
  2: { assert (Hv : extent_guard.valid guard = false)
         by (unfold extent_guard.valid; by rewrite Hgh).
       rewrite Hv. unfold extent_guard.destructor. rewrite Hgh.
       exists O, 1%nat, (cevs ++ [ev_lock lh (entity_value a) 1
                                   (entity_exclusive a) zero_deadline
                                   (value guard)]).
       cbn [fst snd].
       rewrite Hlk, Hc, <- app_assoc, lock_calls_app, granted_app,
         lock_replies_app, Hcl, Hcg, Hcr.
       cbn [length take map granted omap list_omap]. rewrite Hv.
       split; [done|]. split; [lia|]. split; [done|]. split; [done|].
       split; [done|]. by exists guard. }
  assert (Hv : extent_guard.valid guard = true)
    by (unfold extent_guard.valid; by rewrite Hgh).
  rewrite Hv, (destructor_live guard _ gh Hgh).
  destruct (IH (n + 1) (do_unlock gh (_offset guard) (_length guard) s2))
    as (k & k' & evs & Ht & Hk & Hl & Hg & Hstop).
  set (here := [ev_lock lh (entity_value a) 1 (entity_exclusive a)
                  zero_deadline (value guard);
                ev_unlock gh (_offset guard) (_length guard)]).
  exists (S k), (S k'), (cevs ++ here ++ evs).
  assert (Hlast : ∀ x, last (lock_replies evs) = Some x →
            last (lock_replies (cevs ++ here ++ evs)) = Some x).
  { intros x Hx. rewrite !lock_replies_app, !last_app, Hx. done. }
  assert (Hclock : ∀ x, last (clock_readings evs) = Some x →
            last (clock_readings (cevs ++ here ++ evs)) = Some x).
  { intros x Hx. rewrite !clock_readings_app, !last_app, Hx. done. }
  split.
  { rewrite Ht. cbn [trace do_unlock]. rewrite Hlk, Hc.
    subst here. by rewrite <- !app_assoc. }
  split; [cbn [length]; lia|].
  split.
  { rewrite !lock_calls_app, Hcl, Hl. reflexivity. }
  split.
  { rewrite !granted_app, Hcg, Hg. subst here.
    cbn [granted omap list_omap app]. rewrite Hv. reflexivity. }
  destruct (lock_files.for_entities lh d began_steady end_utc rest (n + 1)
              (do_unlock gh (_offset guard) (_length guard) s2)).1.1
    as [| |ec].
  - destruct Hstop as [-> ->]. done.
  - destruct Hstop as (-> & g & Hg1 & Hg2). split; [done|].
    exists g. split; [by apply Hlast|done].
  - destruct Hstop as [[-> Hr]|(-> & -> & t & Ht1 & Ht2)].
    + left. split; [done|]. by apply Hlast.
    + right. split; [done|]. split; [done|]. exists t.
      split; [by apply Hclock|done].
Qed.

(** A finished call, taken apart around its one pass: the lock file was
    opened, the events of the call end with those of the [for] loop, the
    closing of the lock file and events that are neither lock calls nor
    readings of a clock, and an error of the loop is the result. *)
Lemma do_while_pass (lh : handle_id) out d began_steady end_utc s
    (fuel : nat) res out' s' :
  Z.of_nat (length out) < size_modulus →
  (∀ l w, length (random_shuffle l w).1 = length l) →
  lock_files.do_while (S fuel) lh out d began_steady end_utc None s
  = finished (res, out', s') →
  ∃ ret tail,
    (do_file s).1 = value ret
    ∧ trace s'
      = trace (lock_files.for_entities lh d began_steady end_utc out 0
                 (do_file s).2).2 ++ ev_close ret :: tail
    ∧ lock_calls tail = [] ∧ granted tail = []
    ∧ lock_replies tail = [] ∧ clock_readings tail = []
    ∧ res = match (lock_files.for_entities lh d began_steady end_utc out 0
                     (do_file s).2).1.1 with
            | lock_files.for_return ec => errored ec
            | _ => value ()
            end.
Proof.
  intros Hsize Hshuffle.
  rewrite (do_while_single_pass lh out d began_steady end_utc None s fuel
             Hsize Hshuffle).
  destruct (do_file s).1 as [ret|ec] eqn:Hf.
  2: { by rewrite (block_open_error lh out d began_steady end_utc s ec Hf). }
  pose proof (block_done lh out d began_steady end_utc None s ret Hf) as Hbd.
  pose proof (block_after_stop lh out d began_steady end_utc None s ret
                Hsize Hf) as Hbs.
  cbv zeta in Hbs. revert Hbd Hbs.
  destruct (lock_files.for_entities lh d began_steady end_utc out 0
              (do_file s).2) as [[x nn] sr].
  cbn [fst snd]. intros Hbd Hbs.
  destruct x as [| |ec].
  - rewrite (Hbd eq_refl). intros Heq. exists ret.
    assert (Hres : res = value ()) by congruence.
    assert (Hs' : s' = do_close ret sr) by congruence.
    subst res s'. exists []. by rewrite do_close_trace.
  - destruct Hbs as (k1 & ent & _ & _ & _ & _ & _ & _ & Hb); [done|].
    rewrite Hb. intros Heq.
    assert (Hres : res = value ()) by congruence.
    assert (Hs' : s' = do_yield
                         (do_random_shuffle out
                            (lock_files.unlock lh
                               (ent :: rev (take k1 out))
                               (do_close ret sr))).2) by congruence.
    subst res s'. exists ret. eexists.
    rewrite backoff_trace, unlock_trace, do_close_trace, <- !app_assoc.
    cbn [app]. split; [done|]. split; [reflexivity|].
    destruct (unlocks_silent lh (ent :: rev (take k1 out)))
      as (Hu1 & Hu2 & Hu3).
    rewrite lock_calls_app, granted_app, lock_replies_app,
      clock_readings_app, lock_calls_unlocks, Hu1, Hu2, Hu3.
    done.
  - destruct Hbs as (k1 & ent & _ & _ & _ & _ & _ & _ & Hb); [done|].
    rewrite Hb. intros Heq.
    assert (Hres : res = errored ec) by congruence.
    assert (Hs' : s' = lock_files.unlock lh (ent :: rev (take k1 out))
                         (do_close ret sr)) by congruence.
    subst res s'. exists ret. eexists.
    rewrite unlock_trace, do_close_trace, <- !app_assoc.
    cbn [app]. split; [done|]. split; [reflexivity|].
    destruct (unlocks_silent lh (ent :: rev (take k1 out)))
      as (Hu1 & Hu2 & Hu3).
    by rewrite lock_calls_unlocks, Hu1, Hu2, Hu3.
Qed.

(** C1: in every finished call of [_lock] the lock requests made are, one
    for one and in the current order of the sequence, those of its first
    [k'] entities, each [_h.lock(id, 1, exclusive, deadline of zero)]: a
    range of one byte at the offset that is the id of the entity, with its
    exclusive flag and the zero (try) deadline, for the first entity as for
    every later one. No position is skipped and none is requested twice:
    the requests granted are those of the first [k] entities, and the pass
    stops short of the end of the sequence only at a request whose reply is
    an error or an invalid guard, or at a reading of the clock at which the
    deadline had passed, in which case the result is the timeout. *)
Theorem _lock_requests_in_order (lh : handle_id) out d s (fuel : nat) res
    out' s' :
  Z.of_nat (length out) < size_modulus →
  (∀ l w, length (random_shuffle l w).1 = length l) →
  lock_files._lock (S fuel) lh out d s = finished (res, out', s') →
  ∃ k k' : nat,
    (k' ≤ length out)%nat
    ∧ lock_calls (drop (length (trace s)) (trace s'))
      = map (λ e, (lh, entity_value e, 1, entity_exclusive e, relative 0))
          (take k' out)
    ∧ granted (drop (length (trace s)) (trace s'))
      = map (λ e, (lh, entity_value e, 1, entity_exclusive e, relative 0))
          (take k out)
    ∧ ((k = length out ∧ k' = k ∧ res = value ())
       ∨ (k' = S k
          ∧ ∃ r, last (lock_replies (drop (length (trace s)) (trace s')))
                 = Some r
                 ∧ is_granted r = false)
       ∨ (k' = k ∧ res = errored ETIMEDOUT
          ∧ deadline_passed_in d
              (clock_readings (drop (length (trace s)) (trace s')))
            = true)).
Proof.
  intros Hsize Hshuffle. unfold lock_files._lock.
  destruct (start_clocks_exact d s) as (pro & Hpro & Hpl & Hpr & Hpc).
  assert (Hpg : granted pro = []).
  { clear -Hpr. induction pro as [|ev pro IH]; [done|].
    destruct ev; try done; by apply IH. }
  revert Hpro Hpc.
  destruct (lock_files.start_clocks d s) as [[b e] c]; cbn [fst snd].
  intros Hpro Hpc Hrun.
  destruct (do_while_pass lh out d b e c fuel res out' s' Hsize Hshuffle Hrun)
    as (ret & tail & Hf & Htr & Htl & Htg & Htr' & Htc & Hres).
  destruct (for_entities_exact lh d b e out 0 (do_file c).2)
    as (k & k' & evs & Ht & Hk & Hl & Hg & Hstop).
  cbv zeta in Ht, Hstop.
  assert (Hnew : drop (length (trace s)) (trace s')
                 = pro ++ [ev_file (value ret)] ++ evs
                   ++ [ev_close ret] ++ tail).
  { rewrite Htr, Ht, do_file_trace, Hf, Hpro, <- !app_assoc.
    by rewrite drop_app_length. }
  rewrite Hnew. clear Hnew Htr Ht.
  exists k, k'. split; [done|].
  rewrite !lock_calls_app, !granted_app, !lock_replies_app,
    !clock_readings_app, Hpl, Hpg, Hpr, Htl, Htg, Htr', Htc, Hl, Hg.
  cbn [lock_calls granted lock_replies clock_readings omap list_omap app].
  rewrite !app_nil_r.
  split; [done|]. split; [done|].
  destruct (lock_files.for_entities lh d b e out 0 (do_file c).2).1.1
    as [| |ec].
  - destruct Hstop as [-> ->]. by left.
  - destruct Hstop as (-> & g & Hg1 & Hg2). right; left.
    split; [done|]. exists (value g). done.
  - destruct Hstop as [[-> Hr]|(-> & -> & t & Ht1 & Ht2)].
    + right; left. split; [done|]. by exists (errored ec).
    + right; right. split; [done|]. split; [done|].
      unfold deadline_passed_in. rewrite last_app, Ht1.
      destruct d as [|nsecs|utc].
      * done.
      * rewrite Hpc. exact Ht2.
      * destruct Hpc as [_ ->]. exact Ht2.
Qed.

End lock_files_requests.

(** In the contended directory the call requests the lock of entity 2 and
    then that of entity 1, and stops at the reply to the second request,
    which is not a grant. *)
Lemma _lock_requests_in_order_witness :
  ∃ k k' : nat,
    (k' ≤ 2)%nat
    ∧ lock_calls (drop (length (trace (start contended_world)))
                    (trace contended_final))
      = map (λ e, (0%nat, entity_value e, 1, entity_exclusive e, relative 0))
          (take k' [entity_B; entity_A])
    ∧ granted (drop (length (trace (start contended_world)))
                 (trace contended_final))
      = map (λ e, (0%nat, entity_value e, 1, entity_exclusive e, relative 0))
          (take k [entity_B; entity_A])
    ∧ ((k = 2%nat ∧ k' = k ∧ value () = value ())
       ∨ (k' = S k
          ∧ ∃ r, last (lock_replies
                         (drop (length (trace (start contended_world)))
                            (trace contended_final)))
                 = Some r
                 ∧ is_granted r = false)
       ∨ (k' = k ∧ value () = errored ETIMEDOUT
          ∧ deadline_passed_in infinite
              (clock_readings
                 (drop (length (trace (start contended_world)))
                    (trace contended_final)))
            = true)).
Proof.
  apply (_lock_requests_in_order 0%nat [entity_B; entity_A] infinite
           (start contended_world) 0 (value ()) [entity_A; entity_B]
           contended_final).
  - vm_compute. reflexivity.
  - apply fs_shuffle_length.
  - vm_compute. reflexivity.
Defined.
